(** * VoiceToText: a shallow embedding of src/component/VoiceToText.jsx

    The React component keeps five pieces of hook state, two refs, one
    SpeechRecognition instance and at most a handful of pending timeouts.
    Its handlers are embedded as computations in a state-and-exception monad
    over a [World] that holds all of these, so that a handler which raises
    half-way keeps the state updates it had already issued (React applies
    queued updates whether or not the handler later throws). *)

From Stdlib Require Import List Bool Arith NArith QArith String Ascii Lia.
Import ListNotations.
Close Scope Q_scope.

Set Implicit Arguments.

(** ** JavaScript strings *)

Module Js.

(** A JavaScript string is a sequence of UTF-16 code units.  Transcripts may
    be Hindi or Odia (see the language picker), so code units are kept as
    numbers rather than as Latin-1 characters. *)
Definition jsstring := list N.

(** Literals of the source, which are all ASCII. *)
Fixpoint lit (s : string) : jsstring :=
  match s with
  | EmptyString => []
  | String c s' => N_of_ascii c :: lit s'
  end.

(** ToBoolean on a string: only the empty string is falsy. *)
Definition truthy (s : jsstring) : bool :=
  match s with
  | [] => false
  | _ :: _ => true
  end.

Fixpoint eqb (s t : jsstring) : bool :=
  match s, t with
  | [], [] => true
  | c :: s', d :: t' => N.eqb c d && eqb s' t'
  | _, _ => false
  end.

(** WhiteSpace and LineTerminator code points of ECMAScript, the ones
    String.prototype.trim strips. *)
Definition is_space (c : N) : bool :=
  (N.leb 9 c && N.leb c 13)                (* TAB LF VT FF CR *)
  || N.eqb c 32 || N.eqb c 160             (* SP, NBSP *)
  || N.eqb c 5760                          (* U+1680 *)
  || (N.leb 8192 c && N.leb c 8202)        (* U+2000 .. U+200A *)
  || N.eqb c 8232 || N.eqb c 8233          (* LS, PS *)
  || N.eqb c 8239 || N.eqb c 8287          (* U+202F, U+205F *)
  || N.eqb c 12288 || N.eqb c 65279.       (* U+3000, U+FEFF *)

Fixpoint trimStart (s : jsstring) : jsstring :=
  match s with
  | [] => []
  | c :: s' => if is_space c then trimStart s' else s
  end.

Definition trimEnd (s : jsstring) : jsstring := rev (trimStart (rev s)).

Definition trim (s : jsstring) : jsstring := trimEnd (trimStart s).

(** Array.prototype.join(" ") on strings; used only to phrase what the
    specification expects. *)
Fixpoint join_space (l : list jsstring) : jsstring :=
  match l with
  | [] => []
  | [s] => s
  | s :: l' => s ++ lit " " ++ join_space l'
  end.

End Js.

Import Js.

(** ** Values exchanged with the host *)

(** What a read of [res[0].confidence] can give: a number, or [undefined]
    when the engine supplied none.  Confidence is only ever copied.  The
    attribute is a float in the Web Speech API; an entry whose confidence is
    [null] is not represented. *)
Inductive Confidence :=
| Undefined
| Number (q : Q).

(** [res[0]] of a SpeechRecognitionResult. *)
Record SpeechRecognitionAlternative := {
  transcript : jsstring;
  confidence : Confidence
}.

(** One entry of [event.results].  The instance is configured with
    [maxAlternatives = 1] and the handler reads alternative 0 only. *)
Record SpeechRecognitionResult := {
  isFinal : bool;
  item0   : SpeechRecognitionAlternative
}.

Record SpeechRecognitionEvent := {
  resultIndex : nat;
  results     : list SpeechRecognitionResult
}.

Inductive Exn :=
| ReferenceError (ident : string)
| TypeError (what : string)
| InvalidStateError
| NotAllowedError
| EngineFault (code : string).

(** How a call into the host (engine start/stop) comes back. *)
Inductive Reply :=
| Returns
| Raises (e : Exn).

(** How the promise of [getUserMedia] settles. *)
Inductive Permission :=
| Granted
| Denied (err : Exn).

Inductive HostCall :=
| GetUserMedia
| EngineStart (tag : jsstring)     (* r.start(), with r.lang at that moment *)
| EngineStop.

Inductive Level := LevelError | LevelWarn.

Record LogEntry := {
  log_level : Level;
  log_text  : string;
  log_arg   : option Exn
}.

(** ** The component's state *)

(** The [useState] cells, lines 11-15.  There is no cell for a confidence. *)
Record UiState := {
  supported         : bool;
  listening         : bool;
  finalTranscript   : jsstring;
  interimTranscript : jsstring;
  lang              : jsstring
}.

(** The attributes the mount effect sets on [r], lines 27-31. *)
Record SpeechRecognition := {
  continuous      : bool;
  interimResults  : bool;
  maxAlternatives : N;
  r_lang          : jsstring
}.

(** [recognitionRef.current] is [null] or the single instance [r]. *)
Inductive RecognitionRef := RefNull | RefR.

(** A pending [setTimeout]; the only callback in the program is
    [() => r.start()]. *)
Record Timer := {
  timer_id    : nat;
  timer_delay : N
}.

Record World := {
  ui             : UiState;
  r              : option SpeechRecognition;  (* the instance, once built *)
  recognitionRef : RecognitionRef;
  timerRef       : option nat;                (* timerRef.current *)
  timers         : list Timer;                (* pending timeouts *)
  next_timer     : nat;
  awaiting       : nat;                       (* unsettled getUserMedia *)
  host_calls     : list HostCall;             (* oldest first *)
  console        : list LogEntry;             (* oldest first *)
  uncaught       : list Exn                   (* errors that left a handler *)
}.

Definition with_ui (f : UiState -> UiState) (w : World) : World :=
  {| ui := f (ui w); r := r w; recognitionRef := recognitionRef w;
     timerRef := timerRef w; timers := timers w; next_timer := next_timer w;
     awaiting := awaiting w; host_calls := host_calls w;
     console := console w; uncaught := uncaught w |}.

Definition with_r (f : option SpeechRecognition -> option SpeechRecognition)
           (w : World) : World :=
  {| ui := ui w; r := f (r w); recognitionRef := recognitionRef w;
     timerRef := timerRef w; timers := timers w; next_timer := next_timer w;
     awaiting := awaiting w; host_calls := host_calls w;
     console := console w; uncaught := uncaught w |}.

Definition with_recognitionRef (x : RecognitionRef) (w : World) : World :=
  {| ui := ui w; r := r w; recognitionRef := x;
     timerRef := timerRef w; timers := timers w; next_timer := next_timer w;
     awaiting := awaiting w; host_calls := host_calls w;
     console := console w; uncaught := uncaught w |}.

Definition with_timerRef (x : option nat) (w : World) : World :=
  {| ui := ui w; r := r w; recognitionRef := recognitionRef w;
     timerRef := x; timers := timers w; next_timer := next_timer w;
     awaiting := awaiting w; host_calls := host_calls w;
     console := console w; uncaught := uncaught w |}.

Definition with_timers (f : list Timer -> list Timer) (n : nat) (w : World)
  : World :=
  {| ui := ui w; r := r w; recognitionRef := recognitionRef w;
     timerRef := timerRef w; timers := f (timers w); next_timer := n;
     awaiting := awaiting w; host_calls := host_calls w;
     console := console w; uncaught := uncaught w |}.

Definition with_awaiting (n : nat) (w : World) : World :=
  {| ui := ui w; r := r w; recognitionRef := recognitionRef w;
     timerRef := timerRef w; timers := timers w; next_timer := next_timer w;
     awaiting := n; host_calls := host_calls w;
     console := console w; uncaught := uncaught w |}.

Definition with_host_call (c : HostCall) (w : World) : World :=
  {| ui := ui w; r := r w; recognitionRef := recognitionRef w;
     timerRef := timerRef w; timers := timers w; next_timer := next_timer w;
     awaiting := awaiting w; host_calls := host_calls w ++ [c];
     console := console w; uncaught := uncaught w |}.

Definition with_log (e : LogEntry) (w : World) : World :=
  {| ui := ui w; r := r w; recognitionRef := recognitionRef w;
     timerRef := timerRef w; timers := timers w; next_timer := next_timer w;
     awaiting := awaiting w; host_calls := host_calls w;
     console := console w ++ [e]; uncaught := uncaught w |}.

Definition with_uncaught (e : Exn) (w : World) : World :=
  {| ui := ui w; r := r w; recognitionRef := recognitionRef w;
     timerRef := timerRef w; timers := timers w; next_timer := next_timer w;
     awaiting := awaiting w; host_calls := host_calls w;
     console := console w; uncaught := uncaught w ++ [e] |}.

(** ** Handlers as computations *)

Inductive Completion (A : Type) :=
| Normal (a : A)
| Throw (e : Exn).
Arguments Normal {A} a.
Arguments Throw {A} e.

Definition M (A : Type) : Type := World -> World * Completion A.

Definition ret {A} (a : A) : M A := fun w => (w, Normal a).

Definition throw {A} (e : Exn) : M A := fun w => (w, Throw e).

Definition bind {A B} (c : M A) (k : A -> M B) : M B :=
  fun w =>
    match c w with
    | (w', Normal a) => k a w'
    | (w', Throw e) => (w', Throw e)
    end.

(** [try { body } catch (e) { handler e }]: the state reached when the body
    raised is the one the handler continues from. *)
Definition try_catch {A} (body : M A) (handler : Exn -> M A) : M A :=
  fun w =>
    match body w with
    | (w', Normal a) => (w', Normal a)
    | (w', Throw e) => handler e w'
    end.

Definition modify (f : World -> World) : M unit := fun w => (f w, Normal tt).

Definition get {A} (f : World -> A) : M A := fun w => (w, Normal (f w)).

Declare Scope js_scope.
Delimit Scope js_scope with js.
Notation "x <- c ;; k" := (bind c (fun x => k))
  (at level 61, c at next level, right associativity) : js_scope.
Notation "c ;; k" := (bind c (fun _ => k))
  (at level 61, right associativity) : js_scope.
Local Open Scope js_scope.

Definition state_after {A} (c : M A) (w : World) : World := fst (c w).
Definition completion {A} (c : M A) (w : World) : Completion A := snd (c w).

(** ** Hook setters, console, host calls *)

Definition setSupported (b : bool) : M unit :=
  modify (with_ui (fun u =>
    {| supported := b; listening := listening u;
       finalTranscript := finalTranscript u;
       interimTranscript := interimTranscript u; lang := lang u |})).

Definition setListening (b : bool) : M unit :=
  modify (with_ui (fun u =>
    {| supported := supported u; listening := b;
       finalTranscript := finalTranscript u;
       interimTranscript := interimTranscript u; lang := lang u |})).

(** Called with an updater function on line 49 and with a value on line 124;
    a value [v] is the updater [fun _ => v]. *)
Definition setFinalTranscript (f : jsstring -> jsstring) : M unit :=
  modify (with_ui (fun u =>
    {| supported := supported u; listening := listening u;
       finalTranscript := f (finalTranscript u);
       interimTranscript := interimTranscript u; lang := lang u |})).

Definition setInterimTranscript (s : jsstring) : M unit :=
  modify (with_ui (fun u =>
    {| supported := supported u; listening := listening u;
       finalTranscript := finalTranscript u;
       interimTranscript := s; lang := lang u |})).

Definition setLang (tag : jsstring) : M unit :=
  modify (with_ui (fun u =>
    {| supported := supported u; listening := listening u;
       finalTranscript := finalTranscript u;
       interimTranscript := interimTranscript u; lang := tag |})).

(** Lines 55 and 126 call [setConfidence], but the component binds no such
    name: lines 11-17 declare [setSupported], [setListening],
    [setFinalTranscript], [setInterimTranscript], [setLang] and two refs, the
    imports are [React], [useEffect], [useRef], [useState] and [motion], and
    no host global is called so.  Evaluating the identifier therefore raises
    a ReferenceError before any argument is looked at. *)
Definition setConfidence (v : option Confidence) : M unit :=
  throw (ReferenceError "setConfidence").

Definition console_error (text : string) (arg : option Exn) : M unit :=
  modify (with_log {| log_level := LevelError; log_text := text;
                      log_arg := arg |}).

Definition console_warn (e : Exn) : M unit :=
  modify (with_log {| log_level := LevelWarn; log_text := EmptyString;
                      log_arg := Some e |}).

Definition answer (reply : Reply) : M unit :=
  match reply with
  | Returns => ret tt
  | Raises e => throw e
  end.

(** The language the engine reads when it is started. *)
Definition engine_lang (w : World) : jsstring :=
  match r w with
  | Some rec => r_lang rec
  | None => []
  end.

(** [r.start()]: the call reaches the engine, which reads [r.lang], and it
    returns or raises as the engine decides. *)
Definition r_start (reply : Reply) : M unit :=
  tag <- get engine_lang ;;
  modify (with_host_call (EngineStart tag)) ;;
  answer reply.

Definition r_stop (reply : Reply) : M unit :=
  modify (with_host_call EngineStop) ;;
  answer reply.

(** A method call through [recognitionRef.current]. *)
Definition via_ref (method : M unit) : M unit :=
  ref <- get recognitionRef ;;
  match ref with
  | RefNull => throw (TypeError "recognitionRef.current is null")
  | RefR => method
  end.

Definition clearTimeout (t : option nat) : M unit :=
  match t with
  | None => ret tt
  | Some id =>
      n <- get next_timer ;;
      modify (with_timers
                (filter (fun x => negb (Nat.eqb (timer_id x) id))) n)
  end.

Definition setTimeout (delay : N) : M nat :=
  id <- get next_timer ;;
  modify (with_timers
            (fun l => l ++ [{| timer_id := id; timer_delay := delay |}])
            (S id)) ;;
  ret id.

(** ** r.onresult, lines 33-56 *)

(** The three [let] variables of the handler. *)
Record Scan := {
  interim        : jsstring;
  final          : jsstring;
  highConfidence : option Confidence     (* [None] is [null] *)
}.

Definition scan_start : Scan :=
  {| interim := []; final := []; highConfidence := None |}.

(** The loop body, lines 39-45. *)
Definition scan_step (a : Scan) (res : SpeechRecognitionResult) : Scan :=
  if isFinal res then
    {| interim := interim a;
       final := final a ++ transcript (item0 res);
       highConfidence := Some (confidence (item0 res)) |}
  else
    {| interim := interim a ++ transcript (item0 res);
       final := final a;
       highConfidence := highConfidence a |}.

(** [for (let i = event.resultIndex; i < event.results.length; ++i)] visits
    the entries from [resultIndex] on, in order, and none when [resultIndex]
    is at or past the length. *)
Definition entries (event : SpeechRecognitionEvent)
  : list SpeechRecognitionResult :=
  skipn (resultIndex event) (results event).

Definition scan (event : SpeechRecognitionEvent) : Scan :=
  fold_left scan_step (entries event) scan_start.

Definition append_segment (segment : jsstring) (t : jsstring) : jsstring :=
  if truthy t then t ++ lit " " ++ trim segment else trim segment.

Definition onresult (event : SpeechRecognitionEvent) : M unit :=
  let a := scan event in
  (if truthy (final a) then
     setFinalTranscript (append_segment (final a)) ;;
     setInterimTranscript []
   else
     setInterimTranscript (interim a)) ;;
  match highConfidence a with
  | None => ret tt
  | Some v => setConfidence (Some v)
  end.

(** ** r.onend, lines 58-66 *)

Definition restart_delay : N := 150.

(** The handler is built inside the mount effect, whose dependency list is
    empty, so the [listening] it tests is the constant of the render that ran
    the effect; it is a parameter here and fixed in [mounted_onend]. *)
Definition onend (captured_listening : bool) : M unit :=
  modify (with_recognitionRef RefR) ;;
  if captured_listening then
    t <- get timerRef ;;
    clearTimeout t ;;
    id <- setTimeout restart_delay ;;
    modify (with_timerRef (Some id))
  else
    ret tt.

(** ** r.onerror, lines 68-70 *)

Definition onerror (e : Exn) : M unit :=
  console_error "Speech recognition error" (Some e).

(** ** The language effect, lines 88-92 *)

Definition set_r_lang (tag : jsstring) (x : SpeechRecognition)
  : SpeechRecognition :=
  {| continuous := continuous x; interimResults := interimResults x;
     maxAlternatives := maxAlternatives x; r_lang := tag |}.

Definition lang_effect : M unit :=
  ref <- get recognitionRef ;;
  match ref with
  | RefNull => ret tt
  | RefR =>
      tag <- get (fun w => lang (ui w)) ;;
      modify (with_r (option_map (set_r_lang tag)))
  end.

(** [onChange] of the picker, line 143: the state is set, and when the value
    changed the component renders again and the effect keyed on [lang]
    runs. *)
Definition handleLangChange (tag : jsstring) : M unit :=
  old <- get (fun w => lang (ui w)) ;;
  setLang tag ;;
  if Js.eqb old tag then ret tt else lang_effect.

(** ** toggleListening, lines 94-121 *)

Definition getUserMedia : M unit :=
  modify (with_host_call GetUserMedia) ;;
  n <- get awaiting ;;
  modify (with_awaiting (S n)).

(** Up to the [await].  The button's handler is rebuilt on every render, so
    its [listening] is the current state. *)
Definition toggleListening (stop_reply : Reply) : M unit :=
  ref <- get recognitionRef ;;
  match ref with
  | RefNull => ret tt
  | RefR =>
      l <- get (fun w => listening (ui w)) ;;
      if negb l then
        getUserMedia
      else
        try_catch (via_ref (r_stop stop_reply)) console_warn ;;
        setListening false
  end.

(** From the [await] on, once the permission promise has settled. *)
Definition toggleListening_resume (p : Permission) (start_reply : Reply)
  : M unit :=
  match p with
  | Denied err => console_error "Microphone permission denied" (Some err)
  | Granted =>
      try_catch (via_ref (r_start start_reply) ;; setListening true)
                console_warn
  end.

(** ** handleClear, lines 123-127 *)

Definition handleClear : M unit :=
  setFinalTranscript (fun _ => []) ;;
  setInterimTranscript [] ;;
  setConfidence None.

(** ** Mounting, lines 11-32 and 72 *)

Definition initial_ui : UiState :=
  {| supported := true; listening := false; finalTranscript := [];
     interimTranscript := []; lang := lit "en-US" |}.

Definition unmounted : World :=
  {| ui := initial_ui; r := None; recognitionRef := RefNull;
     timerRef := None; timers := []; next_timer := 1; awaiting := 0;
     host_calls := []; console := []; uncaught := [] |}.

(** [api] tells whether the host has a SpeechRecognition constructor. *)
Definition mount_effect (api : bool) : M unit :=
  if negb api then
    setSupported false
  else
    modify (with_r (fun _ =>
      Some {| continuous := true; interimResults := true;
              maxAlternatives := 1; r_lang := lang initial_ui |})) ;;
    modify (with_recognitionRef RefR).

Definition mount (api : bool) : World :=
  state_after (mount_effect api ;; lang_effect) unmounted.

(** The end handler the mounted component has: built during the first
    render, where [listening] is the initial value of its cell. *)
Definition mounted_onend : M unit := onend (listening initial_ui).

(** ** The component as a transition system *)

Inductive Event :=
| ClickToggle (stop_reply : Reply)
| PermissionSettled (p : Permission) (start_reply : Reply)
| EngineResult (event : SpeechRecognitionEvent)
| EngineEnd
| EngineError (e : Exn)
| ClickClear
| PickLanguage (tag : jsstring)
| TimerFires (id : nat) (start_reply : Reply).

(** Run a handler to completion; an exception that leaves it is reported to
    the host and the state it reached stays. *)
Definition run (h : M unit) (w : World) : World :=
  match h w with
  | (w', Normal _) => w'
  | (w', Throw e) => with_uncaught e w'
  end.

Definition has_timer (id : nat) (w : World) : bool :=
  existsb (fun x => Nat.eqb (timer_id x) id) (timers w).

Definition has_engine (w : World) : bool :=
  match r w with
  | Some _ => true
  | None => false
  end.

(** [None] when the event cannot happen: the buttons exist only when the API
    is supported, the engine speaks only when it exists, a promise settles
    only when one is outstanding, a timeout fires only while pending. *)
Definition step (e : Event) (w : World) : option World :=
  match e with
  | ClickToggle stop_reply =>
      if supported (ui w) then Some (run (toggleListening stop_reply) w)
      else None
  | PermissionSettled p start_reply =>
      match awaiting w with
      | O => None
      | S n => Some (run (toggleListening_resume p start_reply)
                         (with_awaiting n w))
      end
  | EngineResult event =>
      if has_engine w then Some (run (onresult event) w) else None
  | EngineEnd =>
      if has_engine w then Some (run mounted_onend w) else None
  | EngineError e =>
      if has_engine w then Some (run (onerror e) w) else None
  | ClickClear =>
      if supported (ui w) then Some (run handleClear w) else None
  | PickLanguage tag => Some (run (handleLangChange tag) w)
  | TimerFires id start_reply =>
      if has_timer id w then
        Some (run (r_start start_reply)
                  (with_timers
                     (filter (fun x => negb (Nat.eqb (timer_id x) id)))
                     (next_timer w) w))
      else None
  end.

Inductive reachable : World -> Prop :=
| reachable_mount : forall api, reachable (mount api)
| reachable_step : forall w e w',
    reachable w -> step e w = Some w' -> reachable w'.

Fixpoint steps (es : list Event) (w : World) : option World :=
  match es with
  | [] => Some w
  | e :: es' =>
      match step e w with
      | Some w' => steps es' w'
      | None => None
      end
  end.

(** Number of times the engine was asked to start. *)
Definition start_count (w : World) : nat :=
  List.length
    (filter (fun c => match c with EngineStart _ => true | _ => false end)
                 (host_calls w)).

(** ** What a batch adds up to *)

(** [res[0].transcript]. *)
Definition top (res : SpeechRecognitionResult) : jsstring :=
  transcript (item0 res).

Definition is_interim (res : SpeechRecognitionResult) : bool :=
  negb (isFinal res).

(** The texts of the final entries of the batch, run together. *)
Definition final_text (event : SpeechRecognitionEvent) : jsstring :=
  List.concat (map top (filter isFinal (entries event))).

(** The texts of the non-final entries of the batch, run together. *)
Definition interim_text (event : SpeechRecognitionEvent) : jsstring :=
  List.concat (map top (filter is_interim (entries event))).

Definition has_final (event : SpeechRecognitionEvent) : bool :=
  existsb isFinal (entries event).

(** ** The invariant of the mounted component *)

(** No timeout is ever pending, and the ref, the [supported] flag and the
    language of the instance follow from whether the instance exists. *)
Record Inv (w : World) : Prop := {
  inv_timers   : timers w = [];
  inv_timerRef : timerRef w = None;
  inv_engine   : match r w with
                 | Some rec => recognitionRef w = RefR
                               /\ supported (ui w) = true
                               /\ r_lang rec = lang (ui w)
                 | None => recognitionRef w = RefNull
                           /\ supported (ui w) = false
                 end
}.

(** ** The specification's wording, for comparison *)

(** "Append it to finalizedText, using a single separating space when
    finalizedText is non-empty, trimming the appended segment first." *)
Definition spec_append (prev segment : jsstring) : jsstring :=
  match prev with
  | [] => trim segment
  | _ :: _ => prev ++ lit " " ++ trim segment
  end.

(** The merge of a batch with a final entry as the specification has it;
    [acc] is how the final texts of the batch are accumulated. *)
Definition spec_final_merge (acc : list jsstring -> jsstring)
           (event : SpeechRecognitionEvent) (w : World) : Prop :=
  has_final event = true ->
  let w' := state_after (onresult event) w in
  finalTranscript (ui w')
  = spec_append (finalTranscript (ui w))
                (acc (map top (filter isFinal (entries event))))
  /\ interimTranscript (ui w') = [].

(** The merge of a batch without final entry as the specification has it. *)
Definition spec_interim_merge (event : SpeechRecognitionEvent) (w : World)
  : Prop :=
  has_final event = false ->
  let w' := state_after (onresult event) w in
  interimTranscript (ui w') = join_space (map top (entries event))
  /\ finalTranscript (ui w') = finalTranscript (ui w).

(** An event without entries as the specification has it. *)
Definition spec_empty_event_noop (event : SpeechRecognitionEvent) (w : World)
  : Prop :=
  resultIndex event = List.length (results event) ->
  ui (state_after (onresult event) w) = ui w
  /\ completion (onresult event) w = Normal tt.

(** A language change during a session as the specification has it: the
    running instance keeps its configuration. *)
Definition spec_language_not_hot (tag : jsstring) (w : World) : Prop :=
  listening (ui w) = true ->
  r (run (handleLangChange tag) w) = r w.


(** A denied start request as the specification has it: once the denial has
    settled the component is idle, the state the display reads shows the
    denial, and the engine was not started. *)
Definition spec_denied_start (err : Exn) (reply : Reply) (w : World)
  : Prop :=
  forall w',
    step (PermissionSettled (Denied err) reply) w = Some w' ->
    listening (ui w') = false
    /\ ui w' <> ui w
    /\ start_count w' = start_count w.

(** A granted start request whose start fails, as the specification has it:
    the error is swallowed, the component is not listening afterwards and
    the transcripts are as before. *)
Definition spec_failed_start (e : Exn) (w : World) : Prop :=
  forall w',
    step (PermissionSettled Granted (Raises e)) w = Some w' ->
    uncaught w' = uncaught w
    /\ listening (ui w') = false
    /\ finalTranscript (ui w') = finalTranscript (ui w)
    /\ interimTranscript (ui w') = interimTranscript (ui w).

(** The language picked last in a run of events, [tag] when none was. *)
Definition last_pick (es : list Event) (tag : jsstring) : jsstring :=
  fold_left (fun t e => match e with
                        | PickLanguage t' => t'
                        | _ => t
                        end) es tag.

(** ** Sample inputs *)

Definition interim_entry (s : string) : SpeechRecognitionResult :=
  {| isFinal := false;
     item0 := {| transcript := lit s; confidence := Undefined |} |}.

Definition final_entry (s : string) (c : Confidence)
  : SpeechRecognitionResult :=
  {| isFinal := true; item0 := {| transcript := lit s; confidence := c |} |}.

Definition batch (i : nat) (l : list SpeechRecognitionResult)
  : SpeechRecognitionEvent :=
  {| resultIndex := i; results := l |}.

(** Mounted with the API present, started with permission granted. *)
Definition started : World :=
  run (toggleListening_resume Granted Returns)
      (with_awaiting 0 (run (toggleListening Returns) (mount true))).

(** Scenario 1: the engine has reported a non-final "hello". *)
Definition heard_hello : World :=
  run (onresult (batch 0 [interim_entry "hello"])) started.

(** Scenario 2: the engine then finalises "hello world" with confidence
    0.9. *)
Definition hello_world_final : SpeechRecognitionEvent :=
  batch 0 [final_entry "hello world" (Number (9 # 10)%Q)].

(** A session whose transcript holds "hi". *)
Definition said_hi : World :=
  run (onresult (batch 0 [final_entry "hi" Undefined])) started.

(** A batch whose only final entry has an empty text. *)
Definition silent_final : SpeechRecognitionEvent :=
  batch 0 [final_entry "" Undefined; interim_entry "yo"].

Definition two_interims : SpeechRecognitionEvent :=
  batch 0 [interim_entry "a"; interim_entry "b"].

(** An event that echoes an index already past the end of the list. *)
Definition echo_event : SpeechRecognitionEvent :=
  batch 1 [interim_entry "hello"].


(** Mounted with the API present, one click, the prompt not yet answered. *)
Definition asked_once : World :=
  run (toggleListening Returns) (mount true).

(** Two clicks before the prompt answers; the first request has been granted
    and its start has returned, the second is still open. *)
Definition asked_twice_started : World :=
  run (toggleListening_resume Granted Returns)
      (with_awaiting 1
         (run (toggleListening Returns)
              (run (toggleListening Returns) (mount true)))).

(** ** What the component keeps while mounted *)

(** Number of times the permission was asked for. *)
Definition permission_count (w : World) : nat :=
  List.length
    (filter (fun c => match c with GetUserMedia => true | _ => false end)
            (host_calls w)).

(** The attributes of lines 28-30 stay as set, every start of the engine is
    paid for by a settled permission request, and the only error that has
    left a handler is the one on the unbound setter. *)
Record Kept (w : World) : Prop := {
  kept_config     : forall rec, r w = Some rec ->
                      continuous rec = true /\ interimResults rec = true
                      /\ maxAlternatives rec = 1%N;
  kept_permission : start_count w + awaiting w <= permission_count w;
  kept_uncaught   : Forall (fun e => e = ReferenceError "setConfidence")
                           (uncaught w)
}.

(** ** Unmounting, lines 74-84 *)

(** Which of the three handlers are still assigned on [r]; [false] is
    [null]. *)
Record Handlers := {
  h_onresult : bool;
  h_onend    : bool;
  h_onerror  : bool
}.

Definition no_handlers : Handlers :=
  {| h_onresult := false; h_onend := false; h_onerror := false |}.

(** The component in its page: its world, the handlers on the instance, and
    whether it is still mounted. *)
Record Page := {
  world    : World;
  handlers : Handlers;
  mounted  : bool
}.

(** The mount effect assigns the three handlers when it builds [r], lines
    33-70, and none when it returns early. *)
Definition page_mount (api : bool) : Page :=
  {| world := mount api;
     handlers := {| h_onresult := api; h_onend := api; h_onerror := api |};
     mounted := true |}.

(** The part of the cleanup that acts on the world: the timeout is cleared,
    then the engine is stopped inside a [try] whose [catch] is empty. *)
Definition cleanup_world (stop_reply : Reply) : M unit :=
  t <- get timerRef ;;
  clearTimeout t ;;
  try_catch (r_stop stop_reply) (fun _ => ret tt).

(** The cleanup function: the three handlers are set to [null] before the
    stop is attempted. *)
Definition cleanup (stop_reply : Reply) (p : Page) : Page :=
  {| world := run (cleanup_world stop_reply) (world p);
     handlers := no_handlers;
     mounted := mounted p |}.

(** Unmounting runs the cleanup the mount effect returned; the early return
    of line 24 returns none. *)
Definition unmount (stop_reply : Reply) (p : Page) : Page :=
  let p' := if has_engine (world p) then cleanup stop_reply p else p in
  {| world := world p'; handlers := handlers p'; mounted := false |}.

Inductive PageEvent :=
| Inner (e : Event)
| Unmount (stop_reply : Reply).

Definition on_world (f : World -> option World) (p : Page) : option Page :=
  option_map (fun w' => {| world := w'; handlers := handlers p;
                           mounted := mounted p |})
             (f (world p)).

(** React drops the state updates of a component that is no longer
    mounted. *)
Definition keep_ui (u : UiState) (w : World) : World :=
  with_ui (fun _ => u) w.

(** The buttons and the picker are gone with the component; the engine's
    events reach a handler only while one is assigned; a permission promise
    settles and a timeout fires whether or not the component is mounted. *)
Definition page_step (pe : PageEvent) (p : Page) : option Page :=
  match pe with
  | Unmount stop_reply =>
      if mounted p then Some (unmount stop_reply p) else None
  | Inner e =>
      match e with
      | ClickToggle _ | ClickClear | PickLanguage _ =>
          if mounted p then on_world (step e) p else None
      | PermissionSettled _ _ =>
          if mounted p then on_world (step e) p
          else on_world (fun w => option_map (keep_ui (ui w)) (step e w)) p
      | EngineResult _ =>
          if has_engine (world p) then
            if h_onresult (handlers p) then on_world (step e) p else Some p
          else None
      | EngineEnd =>
          if has_engine (world p) then
            if h_onend (handlers p) then on_world (step e) p else Some p
          else None
      | EngineError _ =>
          if has_engine (world p) then
            if h_onerror (handlers p) then on_world (step e) p else Some p
          else None
      | TimerFires _ _ => on_world (step e) p
      end
  end.

Fixpoint page_steps (es : list PageEvent) (p : Page) : option Page :=
  match es with
  | [] => Some p
  | e :: es' =>
      match page_step e p with
      | Some p' => page_steps es' p'
      | None => None
      end
  end.

Definition is_engine_event (e : Event) : bool :=
  match e with
  | EngineResult _ | EngineEnd | EngineError _ => true
  | _ => false
  end.

(** * Properties *)

(** ** The loop of [onresult] *)

Lemma fold_scan_final : forall l a,
  final (fold_left scan_step l a)
  = final a ++ List.concat (map top (filter isFinal l)).
Proof.
  induction l as [|res l IH]; intro a; simpl.
  - now rewrite app_nil_r.
  - rewrite IH. unfold scan_step.
    destruct (isFinal res); simpl; [|reflexivity].
    unfold top. now rewrite app_assoc.
Qed.

Lemma fold_scan_interim : forall l a,
  interim (fold_left scan_step l a)
  = interim a ++ List.concat (map top (filter is_interim l)).
Proof.
  induction l as [|res l IH]; intro a; simpl.
  - now rewrite app_nil_r.
  - rewrite IH. unfold scan_step, is_interim.
    destruct (isFinal res); simpl; [reflexivity|].
    unfold top. now rewrite app_assoc.
Qed.

Lemma fold_scan_high_none : forall l a,
  existsb isFinal l = false ->
  highConfidence (fold_left scan_step l a) = highConfidence a.
Proof.
  induction l as [|res l IH]; intros a H; simpl in *; [reflexivity|].
  apply orb_false_iff in H. destruct H as [Hres Hl].
  rewrite (IH _ Hl). unfold scan_step. now rewrite Hres.
Qed.

Lemma fold_scan_high_some : forall l a,
  existsb isFinal l = true ->
  exists v, highConfidence (fold_left scan_step l a) = Some v.
Proof.
  induction l as [|res l IH]; intros a H; simpl in *; [discriminate|].
  destruct (existsb isFinal l) eqn:Hl.
  - now apply IH.
  - rewrite (fold_scan_high_none _ _ Hl). unfold scan_step.
    rewrite orb_false_r in H. rewrite H. simpl. eauto.
Qed.

Lemma filter_none_final : forall l : list SpeechRecognitionResult,
  existsb isFinal l = false ->
  filter isFinal l = [] /\ filter is_interim l = l.
Proof.
  induction l as [|res l IH]; intro H; simpl in *; [easy|].
  apply orb_false_iff in H. destruct H as [Hres Hl].
  destruct (IH Hl) as [IH1 IH2].
  unfold is_interim at 1. rewrite Hres. simpl. now rewrite IH1, IH2.
Qed.

Lemma scan_final : forall event, final (scan event) = final_text event.
Proof. intro. unfold scan. now rewrite fold_scan_final. Qed.

Lemma scan_interim : forall event,
  interim (scan event) = interim_text event.
Proof. intro. unfold scan. now rewrite fold_scan_interim. Qed.

Lemma scan_high_none : forall event,
  has_final event = false -> highConfidence (scan event) = None.
Proof. intros event H. unfold scan. now rewrite fold_scan_high_none. Qed.

Lemma scan_high_some : forall event,
  has_final event = true -> exists v, highConfidence (scan event) = Some v.
Proof. intros event H. unfold scan. now apply fold_scan_high_some. Qed.

Lemma final_text_needs_final : forall event,
  final_text event <> [] -> has_final event = true.
Proof.
  intros event H. destruct (has_final event) eqn:E; [reflexivity|].
  exfalso. apply H. unfold final_text.
  now rewrite (proj1 (filter_none_final _ E)).
Qed.

Lemma truthy_true : forall s, truthy s = true <-> s <> [].
Proof. destruct s; simpl; split; congruence. Qed.

Lemma eqb_eq : forall s t, Js.eqb s t = true -> s = t.
Proof.
  induction s as [|c s IH]; destruct t as [|d t]; simpl;
    try discriminate; [reflexivity|].
  intro H. apply andb_true_iff in H. destruct H as [Hc Hs].
  apply N.eqb_eq in Hc. subst. f_equal. now apply IH.
Qed.

(** Last write wins: after the loop [highConfidence] is the confidence read
    from the last final entry of the batch, or [null] when there is none. *)
Lemma fold_scan_high_last : forall l a,
  highConfidence (fold_left scan_step l a)
  = match rev (filter isFinal l) with
    | [] => highConfidence a
    | res :: _ => Some (confidence (item0 res))
    end.
Proof.
  induction l as [|res l IH]; intro a; simpl; [reflexivity|].
  rewrite IH. unfold scan_step at 1.
  destruct (isFinal res); simpl; [|reflexivity].
  destruct (rev (filter isFinal l)); reflexivity.
Qed.

Lemma scan_high_last : forall event,
  highConfidence (scan event)
  = match rev (filter isFinal (entries event)) with
    | [] => None
    | res :: _ => Some (confidence (item0 res))
    end.
Proof. intro. unfold scan. now rewrite fold_scan_high_last. Qed.

(** What [onresult] leaves behind, by the two arms of [if (final)]. *)
Lemma onresult_ui_final : forall event w,
  final_text event <> [] ->
  ui (state_after (onresult event) w)
  = {| supported := supported (ui w); listening := listening (ui w);
       finalTranscript :=
         append_segment (final_text event) (finalTranscript (ui w));
       interimTranscript := []; lang := lang (ui w) |}.
Proof.
  intros event w H. unfold state_after, onresult.
  rewrite scan_final.
  destruct (scan_high_some event (final_text_needs_final event H))
    as [v Hv].
  rewrite Hv. apply truthy_true in H. rewrite H. reflexivity.
Qed.

Lemma onresult_ui_interim : forall event w,
  final_text event = [] ->
  ui (state_after (onresult event) w)
  = {| supported := supported (ui w); listening := listening (ui w);
       finalTranscript := finalTranscript (ui w);
       interimTranscript := interim_text event; lang := lang (ui w) |}.
Proof.
  intros event w H. unfold state_after, onresult.
  rewrite scan_final, scan_interim, H. simpl.
  destruct (highConfidence (scan event)); reflexivity.
Qed.

(** A batch with a final entry always ends in the unbound identifier. *)
Lemma onresult_final_throws : forall event w,
  has_final event = true ->
  completion (onresult event) w = Throw (ReferenceError "setConfidence").
Proof.
  intros event w H. unfold completion, onresult.
  destruct (scan_high_some event H) as [v Hv]. rewrite Hv.
  destruct (truthy (final (scan event))); reflexivity.
Qed.

Lemma onresult_interim_returns : forall event w,
  has_final event = false ->
  onresult event w
  = (with_ui (fun u =>
       {| supported := supported u; listening := listening u;
          finalTranscript := finalTranscript u;
          interimTranscript := List.concat (map top (entries event));
          lang := lang u |}) w, Normal tt).
Proof.
  intros event w H. unfold onresult.
  rewrite (scan_high_none event H), scan_final, scan_interim.
  unfold final_text, interim_text.
  destruct (filter_none_final _ H) as [H1 H2]. rewrite H1, H2. reflexivity.
Qed.

Lemma append_segment_spec : forall segment t,
  append_segment segment t = spec_append t segment.
Proof. intros segment [|c t]; reflexivity. Qed.

(** ** Merging a batch that finalises text *)

(** C1, as stated, fails: a batch can hold a final entry and still add up to
    no final text, and then the transcript is left alone and the interim
    text is not cleared.  With "hi" on record and a batch made of an empty
    final entry and a non-final "yo", the specification expects "hi " and an
    empty interim text, whichever way the final texts are accumulated. *)
Lemma silent_final_not_merged :
  ~ spec_final_merge (@List.concat N) silent_final said_hi
  /\ ~ spec_final_merge join_space silent_final said_hi.
Proof.
  split; intro H; destruct (H eq_refl) as [_ Hi];
    vm_compute in Hi; discriminate.
Qed.

(** C1, amended: for every result event whose final entries add up to a
    non-empty text, the final transcript afterwards is the previous one with
    that text trimmed and appended (after a single space when the previous
    one is non-empty, on its own when it is empty), and the interim text is
    empty. *)
Theorem onresult_appends_final_text : forall event w,
  final_text event <> [] ->
  let w' := state_after (onresult event) w in
  finalTranscript (ui w')
  = spec_append (finalTranscript (ui w)) (final_text event)
  /\ interimTranscript (ui w') = [].
Proof.
  intros event w H w'. subst w'.
  rewrite (onresult_ui_final event w H). simpl.
  now rewrite append_segment_spec.
Qed.

Lemma onresult_appends_final_text_witness :
  final_text hello_world_final <> []
  /\ finalTranscript (ui (state_after (onresult hello_world_final)
                                      heard_hello))
     = lit "hello world"
  /\ interimTranscript (ui (state_after (onresult hello_world_final)
                                        heard_hello)) = [].
Proof.
  split; [discriminate|].
  apply (onresult_appends_final_text hello_world_final heard_hello).
  discriminate.
Defined.

(** ** Merging a batch without final entries *)

(** C3, as stated, fails: the texts are run together as they come, no space
    is put between them.  Two non-final entries "a" and "b" give "ab". *)
Lemma two_interims_not_space_joined :
  ~ spec_interim_merge two_interims started.
Proof.
  intro H. destruct (H eq_refl) as [Hi _]. vm_compute in Hi. discriminate.
Qed.

(** C3, amended: for every result event without final entries, the interim
    text afterwards is the concatenation, without separator, of the top
    alternative texts of the event's entries from [resultIndex] on, whatever
    it was before, and the final transcript is unchanged. *)
Theorem onresult_replaces_interim : forall event w,
  has_final event = false ->
  let w' := state_after (onresult event) w in
  interimTranscript (ui w') = List.concat (map top (entries event))
  /\ finalTranscript (ui w') = finalTranscript (ui w).
Proof.
  intros event w H w'. subst w'. unfold state_after.
  rewrite (onresult_interim_returns event w H). split; reflexivity.
Qed.

Lemma onresult_replaces_interim_witness :
  has_final two_interims = false
  /\ interimTranscript (ui (state_after (onresult two_interims) heard_hello))
     = lit "ab"
  /\ finalTranscript (ui (state_after (onresult two_interims) heard_hello))
     = [].
Proof.
  split; [reflexivity|].
  apply (onresult_replaces_interim two_interims heard_hello). reflexivity.
Defined.

(** ** An event without entries *)

Lemma entries_past_end : forall event,
  resultIndex event = List.length (results event) -> entries event = [].
Proof. intros event H. unfold entries. rewrite H. apply skipn_all. Qed.

(** C8, as stated, fails: an event without entries still runs the
    replacement of the interim text, by the empty string.  With "hello"
    pending, the echo wipes it. *)
Lemma echo_event_wipes_interim :
  ~ spec_empty_event_noop echo_event heard_hello.
Proof.
  intro H. destruct (H eq_refl) as [Hu _]. vm_compute in Hu. discriminate.
Qed.

(** C8, amended: for every result event with zero entries ([resultIndex]
    equal to the length of the result list) the final transcript is
    unchanged, no confidence is published and no error is raised; the
    interim text becomes the empty string and nothing else changes. *)
Theorem onresult_empty_event : forall event w,
  resultIndex event = List.length (results event) ->
  onresult event w
  = (with_ui (fun u =>
       {| supported := supported u; listening := listening u;
          finalTranscript := finalTranscript u;
          interimTranscript := []; lang := lang u |}) w, Normal tt).
Proof.
  intros event w H. pose proof (entries_past_end event H) as E.
  rewrite onresult_interim_returns.
  - now rewrite E.
  - unfold has_final. now rewrite E.
Qed.

Lemma onresult_empty_event_witness :
  resultIndex echo_event = List.length (results echo_event)
  /\ onresult echo_event heard_hello
     = (with_ui (fun u =>
          {| supported := supported u; listening := listening u;
             finalTranscript := finalTranscript u;
             interimTranscript := []; lang := lang u |}) heard_hello,
        Normal tt).
Proof.
  split; [reflexivity|].
  apply (onresult_empty_event echo_event heard_hello). reflexivity.
Defined.

(** ** The unbound setter *)

(** C5: the handler does reach the publication of the confidence, but the
    setter it calls is not bound, so scenario 2 ends in a ReferenceError
    after the transcript was updated and no confidence is held anywhere. *)
Theorem final_with_confidence_raises :
  highConfidence (scan hello_world_final) = Some (Number (9 # 10)%Q)
  /\ completion (onresult hello_world_final) heard_hello
     = Throw (ReferenceError "setConfidence")
  /\ uncaught (run (onresult hello_world_final) heard_hello)
     = [ReferenceError "setConfidence"]
  /\ ui (run (onresult hello_world_final) heard_hello)
     = {| supported := true; listening := true;
          finalTranscript := lit "hello world"; interimTranscript := [];
          lang := lit "en-US" |}.
Proof. repeat split. Qed.

(** C4: clearing empties both transcripts and then raises, at every state,
    on the same unbound setter.  It makes no call to the engine, leaves the
    listening flag and the timers alone, and a second clearing reaches the
    same state (and raises again). *)
Theorem handleClear_raises : forall w,
  let w' := state_after handleClear w in
  completion handleClear w = Throw (ReferenceError "setConfidence")
  /\ finalTranscript (ui w') = []
  /\ interimTranscript (ui w') = []
  /\ listening (ui w') = listening (ui w)
  /\ host_calls w' = host_calls w
  /\ timers w' = timers w
  /\ state_after handleClear w' = w'
  /\ completion handleClear w' = Throw (ReferenceError "setConfidence").
Proof.
  intro w. unfold state_after, completion, handleClear.
  unfold bind, setFinalTranscript, setInterimTranscript, setConfidence,
    modify, throw. simpl. repeat split.
Qed.

(** ** The end handler *)

Lemma mounted_onend_inert : forall w,
  mounted_onend w = (with_recognitionRef RefR w, Normal tt).
Proof. reflexivity. Qed.

(** What the body of the handler does when the [listening] it sees is true:
    the previous timeout is dropped and one of 150ms is set. *)
Lemma onend_listening_one_timer : forall w,
  timers w = [] ->
  let w1 := state_after (onend true) w in
  let w2 := state_after (onend true) w1 in
  timers w1 = [{| timer_id := next_timer w; timer_delay := 150 |}]
  /\ timers w2 = [{| timer_id := S (next_timer w); timer_delay := 150 |}]
  /\ timerRef w2 = Some (S (next_timer w)).
Proof.
  intros w H. unfold state_after, onend, bind, get, modify, ret,
    clearTimeout, setTimeout, restart_delay; simpl.
  destruct (timerRef w) as [id|]; simpl; rewrite H; simpl;
    rewrite ?Nat.eqb_refl; simpl; repeat split.
Qed.

(** ** What holds in every reachable state *)

Ltac unfold_handlers :=
  unfold run, toggleListening, toggleListening_resume, handleClear,
    handleLangChange, lang_effect, mounted_onend, onend, onerror, onresult,
    getUserMedia, via_ref, r_start, r_stop, answer, console_error,
    console_warn, setConfidence, setListening, setFinalTranscript,
    setInterimTranscript, setLang, setSupported, try_catch, bind, ret,
    throw, modify, get in *.

Lemma Inv_mount : forall api, Inv (mount api).
Proof. intros [|]; split; simpl; auto. Qed.

Lemma Inv_step : forall e w w', Inv w -> step e w = Some w' -> Inv w'.
Proof.
  intros e [u rr ref tr tm nt aw hc co un] w' [Ht Hr He] Hs.
  simpl in Ht, Hr, He. subst tm tr.
  destruct e; simpl in Hs.
  - (* ClickToggle *)
    destruct (supported u) eqn:Hsup; [|discriminate].
    injection Hs as <-. unfold_handlers. simpl.
    destruct ref; simpl; [split; simpl; rewrite ?Hsup; auto|].
    destruct (listening u); simpl; [|split; simpl; rewrite ?Hsup; auto].
    destruct stop_reply; split; simpl; rewrite ?Hsup; auto.
  - (* PermissionSettled *)
    destruct aw as [|n]; [discriminate|]. injection Hs as <-.
    unfold_handlers. simpl.
    destruct p; simpl; [|now split].
    destruct ref; simpl; [now split|].
    destruct start_reply; now split.
  - (* EngineResult *)
    unfold has_engine in Hs. simpl in Hs.
    destruct rr as [rec|]; [|discriminate]. injection Hs as <-.
    unfold_handlers. simpl.
    destruct (truthy (final (scan event)));
      destruct (highConfidence (scan event)); now split.
  - (* EngineEnd *)
    unfold has_engine in Hs. simpl in Hs.
    destruct rr as [rec|]; [|discriminate]. injection Hs as <-.
    unfold_handlers. simpl. split; simpl; tauto.
  - (* EngineError *)
    unfold has_engine in Hs. simpl in Hs.
    destruct rr as [rec|]; [|discriminate]. injection Hs as <-.
    unfold_handlers. simpl. now split.
  - (* ClickClear *)
    destruct (supported u) eqn:Hsup; [|discriminate].
    injection Hs as <-. unfold_handlers. simpl.
    split; simpl; rewrite ?Hsup; auto.
  - (* PickLanguage *)
    injection Hs as <-. unfold_handlers. simpl.
    destruct (Js.eqb (lang u) tag) eqn:E; simpl.
    + apply eqb_eq in E. subst tag. now split.
    + destruct ref; simpl; split; simpl; auto.
      * destruct rr; [destruct He; discriminate|easy].
      * destruct rr; simpl; tauto.
  - (* TimerFires *)
    unfold has_timer in Hs. simpl in Hs. discriminate.
Qed.

Lemma reachable_Inv : forall w, reachable w -> Inv w.
Proof.
  induction 1 as [api|w e w' _ IH Hs].
  - apply Inv_mount.
  - exact (Inv_step e IH Hs).
Qed.

Lemma reachable_steps : forall es w w',
  reachable w -> steps es w = Some w' -> reachable w'.
Proof.
  induction es as [|e es IH]; simpl; intros w w' Hw H.
  - now injection H as <-.
  - destruct (step e w) as [w1|] eqn:E; [|discriminate].
    exact (IH _ _ (reachable_step e Hw E) H).
Qed.

(** In a reachable state no timeout can fire. *)
Lemma reachable_no_timer_fires : forall w id reply,
  reachable w -> step (TimerFires id reply) w = None.
Proof.
  intros w id reply Hw. destruct (reachable_Inv Hw) as [Ht _ _].
  unfold step, has_timer. now rewrite Ht.
Qed.

Lemma started_reachable : reachable started.
Proof.
  apply (reachable_steps
           [ClickToggle Returns; PermissionSettled Granted Returns]
           (reachable_mount true)).
  reflexivity.
Qed.

(** ** Restarting *)

(** C2: with the session started and listening, an end event schedules
    nothing: no timeout is pending afterwards, none fires at any later
    point, and the engine has been started once only, by the user. *)
Theorem end_while_listening_schedules_nothing :
  exists w,
    steps [ClickToggle Returns; PermissionSettled Granted Returns; EngineEnd]
          (mount true) = Some w
    /\ listening (ui w) = true
    /\ timers w = []
    /\ timerRef w = None
    /\ start_count w = 1
    /\ forall es w' id reply,
         steps es w = Some w' -> step (TimerFires id reply) w' = None.
Proof.
  eexists. split; [reflexivity|]. repeat split.
  intros es w' id reply Hes.
  apply reachable_no_timer_fires.
  refine (reachable_steps es _ Hes).
  apply (reachable_steps
           [ClickToggle Returns; PermissionSettled Granted Returns;
            EngineEnd]
           (reachable_mount true)).
  reflexivity.
Qed.

(** ** Stopping *)




(** ** Starting *)

(** C7, as stated, fails on two counts.  The component keeps no flag for a
    denial: after a click from the mounted state and a rejected permission,
    the state the display reads is the one it read before.  And the
    component need not be idle once a denial has settled: of two requests
    made before the prompt answers, the first may be granted and start the
    session before the second is denied. *)
Lemma denial_shows_nowhere :
  ~ spec_denied_start NotAllowedError Returns asked_once
  /\ ~ spec_denied_start NotAllowedError Returns asked_twice_started.
Proof.
  split; intro H.
  - destruct (H _ eq_refl) as (_ & Hu & _). now apply Hu.
  - destruct (H _ eq_refl) as (Hl & _). vm_compute in Hl. discriminate.
Qed.

(** C7, amended: when the permission of a start request is denied, settling
    the denial leaves all the state the display reads as it was (the
    listening flag included, so an idle component stays idle), reports the
    denial with [console.error] under the text "Microphone permission
    denied" and nowhere else, and makes no call to the host: the engine is
    not started. *)
Theorem denied_permission_changes_nothing : forall w n err start_reply,
  awaiting w = S n ->
  exists w',
    step (PermissionSettled (Denied err) start_reply) w = Some w'
    /\ ui w' = ui w
    /\ host_calls w' = host_calls w
    /\ start_count w' = start_count w
    /\ console w'
       = console w ++ [{| log_level := LevelError;
                          log_text := "Microphone permission denied";
                          log_arg := Some err |}]
    /\ uncaught w' = uncaught w
    /\ awaiting w' = n.
Proof.
  intros w n err start_reply Ha.
  eexists. split.
  - unfold step. rewrite Ha. reflexivity.
  - repeat split.
Qed.

Lemma denied_permission_changes_nothing_witness :
  awaiting asked_twice_started = 1
  /\ exists w',
       step (PermissionSettled (Denied NotAllowedError) Returns)
            asked_twice_started = Some w'
       /\ ui w' = ui asked_twice_started
       /\ host_calls w' = host_calls asked_twice_started
       /\ start_count w' = start_count asked_twice_started
       /\ console w'
          = console asked_twice_started
            ++ [{| log_level := LevelError;
                   log_text := "Microphone permission denied";
                   log_arg := Some NotAllowedError |}]
       /\ uncaught w' = uncaught asked_twice_started
       /\ awaiting w' = 0.
Proof.
  split; [reflexivity|].
  apply (@denied_permission_changes_nothing asked_twice_started 0
           NotAllowedError Returns).
  reflexivity.
Defined.

(** C10, as stated, fails: a start that raises does not lower a flag that is
    up.  Of two requests made before the prompt answers, the first starts
    the session; the second, granted as well, has its start refused, and
    the component reports listening after that failed start. *)
Lemma failed_second_start_keeps_listening :
  ~ spec_failed_start InvalidStateError asked_twice_started.
Proof.
  intro H. destruct (H _ eq_refl) as (_ & Hl & _).
  vm_compute in Hl. discriminate.
Qed.

(** C10, amended: when the permission of a start request is granted and the
    engine's [start] raises, the error is caught and logged as a warning,
    nothing leaves the handler, and all hook state, the listening flag and
    the transcripts included, is exactly as it was: a failed start never
    raises the flag, so an idle component stays idle, and a flag raised by
    an earlier start stays up. *)
Theorem failed_start_changes_nothing : forall w n e,
  awaiting w = S n -> recognitionRef w = RefR ->
  exists w',
    step (PermissionSettled Granted (Raises e)) w = Some w'
    /\ ui w' = ui w
    /\ uncaught w' = uncaught w
    /\ host_calls w' = host_calls w ++ [EngineStart (engine_lang w)]
    /\ console w'
       = console w ++ [{| log_level := LevelWarn; log_text := EmptyString;
                          log_arg := Some e |}]
    /\ awaiting w' = n.
Proof.
  intros w n e Ha Href.
  eexists. split.
  - unfold step. rewrite Ha. reflexivity.
  - unfold_handlers. simpl. rewrite Href. simpl. repeat split.
Qed.

Lemma failed_start_changes_nothing_witness :
  awaiting asked_once = 1 /\ recognitionRef asked_once = RefR
  /\ exists w',
       step (PermissionSettled Granted (Raises InvalidStateError))
            asked_once = Some w'
       /\ ui w' = ui asked_once
       /\ uncaught w' = uncaught asked_once
       /\ host_calls w'
          = host_calls asked_once ++ [EngineStart (engine_lang asked_once)]
       /\ console w'
          = console asked_once
            ++ [{| log_level := LevelWarn; log_text := EmptyString;
                   log_arg := Some InvalidStateError |}]
       /\ awaiting w' = 0.
Proof.
  split; [reflexivity|]. split; [reflexivity|].
  apply (@failed_start_changes_nothing asked_once 0 InvalidStateError);
    reflexivity.
Defined.

(** ** Changing the language *)

(** C9, as stated, fails: the effect keyed on [lang] writes the new tag into
    the instance at once, session or no session.  In a started session,
    picking "hi-IN" changes the instance's [lang]. *)
Lemma language_written_during_session :
  ~ spec_language_not_hot (lit "hi-IN") started.
Proof. intro H. specialize (H eq_refl). vm_compute in H. discriminate. Qed.

(** C9, amended: picking a language updates the component's language at
    once and, when an engine instance exists, also writes the tag into that
    instance's [lang] at once, even while a session is active; it makes no
    call to the engine and leaves the listening flag alone, so the next
    engine start is issued with the new tag. *)
Theorem language_change_reaches_engine : forall w tag,
  reachable w ->
  exists w',
    step (PickLanguage tag) w = Some w'
    /\ lang (ui w') = tag
    /\ (forall rec, r w = Some rec -> r w' = Some (set_r_lang tag rec))
    /\ listening (ui w') = listening (ui w)
    /\ host_calls w' = host_calls w
    /\ uncaught w' = uncaught w
    /\ forall reply,
         has_engine w = true ->
         host_calls (run (r_start reply) w')
         = host_calls w ++ [EngineStart tag].
Proof.
  intros [u rr ref tr tm nt aw hc co un] tag Hw.
  destruct (reachable_Inv Hw) as [_ _ He]. simpl in He.
  eexists. split; [reflexivity|].
  unfold_handlers. unfold has_engine, engine_lang. simpl.
  destruct (Js.eqb (lang u) tag) eqn:E; simpl.
  - apply eqb_eq in E. subst tag.
    repeat split; auto.
    + intros rec ->. destruct He as (_ & _ & <-). now destruct rec.
    + intros reply H. destruct rr as [rec|]; [|discriminate].
      destruct He as (_ & _ & ->). destruct reply; reflexivity.
  - destruct rr as [rec|]; simpl in *.
    + destruct He as (-> & _ & _). simpl. repeat split; auto.
      * now intros rec' [= ->].
      * intros reply _. destruct reply; reflexivity.
    + destruct He as (-> & _). simpl. repeat split; auto; discriminate.
Qed.

Lemma language_change_reaches_engine_witness :
  reachable started
  /\ exists w',
       step (PickLanguage (lit "hi-IN")) started = Some w'
       /\ lang (ui w') = lit "hi-IN"
       /\ (forall rec, r started = Some rec ->
                       r w' = Some (set_r_lang (lit "hi-IN") rec))
       /\ listening (ui w') = listening (ui started)
       /\ host_calls w' = host_calls started
       /\ uncaught w' = uncaught started
       /\ forall reply,
            has_engine started = true ->
            host_calls (run (r_start reply) w')
            = host_calls started ++ [EngineStart (lit "hi-IN")].
Proof.
  split; [exact started_reachable|].
  exact (language_change_reaches_engine (lit "hi-IN") started_reachable).
Defined.

(** * Further properties of the handlers *)

(** ** White space around a final text *)

Lemma trimStart_split : forall s,
  exists pre, s = pre ++ trimStart s /\ forallb is_space pre = true.
Proof.
  induction s as [|c s IH]; simpl.
  - exists []. now split.
  - destruct (is_space c) eqn:E.
    + destruct IH as (pre & Hs & Hp). exists (c :: pre). simpl.
      rewrite E, Hp. split; [now f_equal|reflexivity].
    + exists []. now split.
Qed.

Lemma trimStart_head : forall s c rest,
  trimStart s = c :: rest -> is_space c = false.
Proof.
  induction s as [|d s IH]; simpl; intros c rest H; [discriminate|].
  destruct (is_space d) eqn:E.
  - exact (IH _ _ H).
  - injection H as <- _. exact E.
Qed.

Lemma forallb_rev : forall (A : Type) (f : A -> bool) (l : list A),
  forallb f l = true -> forallb f (rev l) = true.
Proof.
  intros A f l H. apply forallb_forall. intros x Hx.
  apply in_rev in Hx. revert x Hx. now apply forallb_forall.
Qed.

Lemma trimEnd_split : forall s,
  exists post, s = trimEnd s ++ post /\ forallb is_space post = true.
Proof.
  intro s. destruct (trimStart_split (rev s)) as (pre & Hs & Hp).
  exists (rev pre). split; [|now apply forallb_rev].
  unfold trimEnd. rewrite <- rev_app_distr, <- Hs. now rewrite rev_involutive.
Qed.

Lemma trimEnd_last : forall s init c,
  trimEnd s = init ++ [c] -> is_space c = false.
Proof.
  unfold trimEnd. intros s init c H.
  apply (f_equal (@rev N)) in H.
  rewrite rev_involutive, rev_app_distr in H. simpl in H.
  exact (trimStart_head _ H).
Qed.

Lemma trimStart_all_space : forall s,
  forallb is_space s = true -> trimStart s = [].
Proof.
  induction s as [|c s IH]; simpl; intro H; [reflexivity|].
  apply andb_true_iff in H. destruct H as [Hc Hs]. rewrite Hc. now apply IH.
Qed.

(** What [trim] returns, said without [trim]: the string is the result
    wrapped in white space, and the result neither starts nor ends with
    white space. *)
Lemma trim_spec : forall s,
  exists pre post,
    s = pre ++ trim s ++ post
    /\ forallb is_space pre = true
    /\ forallb is_space post = true
    /\ (forall c rest, trim s = c :: rest -> is_space c = false)
    /\ (forall init c, trim s = init ++ [c] -> is_space c = false).
Proof.
  intro s. unfold trim.
  destruct (trimStart_split s) as (pre & Hs & Hpre).
  destruct (trimEnd_split (trimStart s)) as (post & Ht & Hpost).
  exists pre, post. repeat split; auto.
  - now rewrite <- Ht.
  - intros c rest H. rewrite H in Ht. simpl in Ht.
    exact (trimStart_head _ Ht).
  - intros init c H. exact (trimEnd_last _ _ _ H).
Qed.

(** X1: for result events whose entries carry a number or no confidence at
    all (the two cases [Confidence] has; an entry with a [null] confidence
    is outside this statement), whether [onresult] returns is decided by the
    batch alone: it ends in the ReferenceError on [setConfidence] exactly
    when an entry from [resultIndex] on is final, whatever its text, and
    returns normally otherwise. *)
Theorem onresult_raises_iff_final : forall event w,
  completion (onresult event) w
  = if has_final event
    then Throw (ReferenceError "setConfidence")
    else Normal tt.
Proof.
  intros event w. destruct (has_final event) eqn:E.
  - now apply onresult_final_throws.
  - unfold completion. now rewrite onresult_interim_returns.
Qed.

(** X2: entries below [resultIndex] play no part: an event that carries
    already reported entries in front is handled exactly like the event
    made of the new entries alone. *)
Theorem onresult_skips_reported_entries : forall pre l w,
  onresult {| resultIndex := List.length pre; results := pre ++ l |} w
  = onresult {| resultIndex := 0; results := l |} w.
Proof.
  intros pre l w.
  assert (E : entries {| resultIndex := List.length pre;
                         results := pre ++ l |}
              = entries {| resultIndex := 0; results := l |}).
  { unfold entries. simpl. rewrite skipn_app, skipn_all, Nat.sub_diag.
    reflexivity. }
  unfold onresult, scan. now rewrite E.
Qed.

Lemma step_interim_batch : forall event w,
  has_engine w = true -> has_final event = false ->
  step (EngineResult event) w
  = Some (with_ui (fun u =>
       {| supported := supported u; listening := listening u;
          finalTranscript := finalTranscript u;
          interimTranscript := List.concat (map top (entries event));
          lang := lang u |}) w).
Proof.
  intros event w He Hf. unfold step. rewrite He. unfold run.
  now rewrite (onresult_interim_returns event w Hf).
Qed.

(** X3: interim results never reach the transcript.  After any run of
    result events none of which holds a final entry, the final transcript,
    the listening flag and the calls made to the host are as before, nothing
    was raised, and the interim text is that of the last event alone. *)
Theorem interim_batches_keep_transcript : forall evs last w,
  has_engine w = true ->
  Forall (fun event => has_final event = false) (evs ++ [last]) ->
  exists w',
    steps (map EngineResult (evs ++ [last])) w = Some w'
    /\ finalTranscript (ui w') = finalTranscript (ui w)
    /\ interimTranscript (ui w') = List.concat (map top (entries last))
    /\ listening (ui w') = listening (ui w)
    /\ host_calls w' = host_calls w
    /\ uncaught w' = uncaught w.
Proof.
  induction evs as [|event evs IH]; intros last w He Hall.
  - apply Forall_inv in Hall. cbn [steps map app].
    rewrite (step_interim_batch last w He Hall).
    eexists. split; [reflexivity|]. repeat split.
  - simpl in Hall. pose proof (Forall_inv Hall) as Hf.
    apply Forall_inv_tail in Hall. cbn [steps map app].
    rewrite (step_interim_batch event w He Hf).
    match goal with
    | |- context [steps _ ?w1] =>
        destruct (IH last w1 He Hall) as (w' & Hs & H1 & H2 & H3 & H4 & H5)
    end.
    exists w'. split; [exact Hs|]. simpl in H1, H3, H4, H5.
    repeat split; assumption.
Qed.

Lemma interim_batches_keep_transcript_witness :
  has_engine heard_hello = true
  /\ Forall (fun event => has_final event = false)
            ([batch 0 [interim_entry "hello"]] ++ [two_interims])
  /\ exists w',
       steps (map EngineResult
                  ([batch 0 [interim_entry "hello"]] ++ [two_interims]))
             heard_hello = Some w'
       /\ finalTranscript (ui w') = finalTranscript (ui heard_hello)
       /\ interimTranscript (ui w')
          = List.concat (map top (entries two_interims))
       /\ listening (ui w') = listening (ui heard_hello)
       /\ host_calls w' = host_calls heard_hello
       /\ uncaught w' = uncaught heard_hello.
Proof.
  split; [reflexivity|].
  split; [repeat constructor|].
  apply (interim_batches_keep_transcript
           [batch 0 [interim_entry "hello"]] two_interims heard_hello).
  - reflexivity.
  - repeat constructor.
Defined.

(** X4: the text put on record is the batch's final text less the white
    space around it, and nothing else: the final text is that segment
    between two runs of white space, the segment neither starts nor ends
    with white space, and the new transcript is the segment itself when the
    transcript was empty, the old transcript, one space and the segment
    otherwise. *)
Theorem recorded_segment_is_stripped : forall event w,
  final_text event <> [] ->
  exists pre segment post,
    final_text event = pre ++ segment ++ post
    /\ forallb is_space pre = true
    /\ forallb is_space post = true
    /\ (forall c rest, segment = c :: rest -> is_space c = false)
    /\ (forall init c, segment = init ++ [c] -> is_space c = false)
    /\ finalTranscript (ui (state_after (onresult event) w))
       = match finalTranscript (ui w) with
         | [] => segment
         | _ :: _ => finalTranscript (ui w) ++ [32%N] ++ segment
         end.
Proof.
  intros event w H.
  destruct (trim_spec (final_text event)) as (pre & post & Hs & H1 & H2 & H3 & H4).
  exists pre, (trim (final_text event)), post.
  repeat split; auto.
  rewrite (onresult_ui_final event w H). simpl.
  unfold append_segment. now destruct (finalTranscript (ui w)).
Qed.

Lemma recorded_segment_is_stripped_witness :
  final_text (batch 0 [final_entry "  ok " Undefined]) <> []
  /\ exists pre segment post,
       final_text (batch 0 [final_entry "  ok " Undefined])
       = pre ++ segment ++ post
       /\ forallb is_space pre = true
       /\ forallb is_space post = true
       /\ (forall c rest, segment = c :: rest -> is_space c = false)
       /\ (forall init c, segment = init ++ [c] -> is_space c = false)
       /\ finalTranscript
            (ui (state_after
                   (onresult (batch 0 [final_entry "  ok " Undefined]))
                   said_hi))
          = match finalTranscript (ui said_hi) with
            | [] => segment
            | _ :: _ => finalTranscript (ui said_hi) ++ [32%N] ++ segment
            end.
Proof.
  split; [discriminate|].
  apply (recorded_segment_is_stripped
           (batch 0 [final_entry "  ok " Undefined]) said_hi).
  discriminate.
Defined.

(** X5: a batch whose final text is white space only still counts as final:
    the interim text is cleared, an empty transcript stays empty, and a
    non-empty transcript gains one trailing space and nothing more. *)
Theorem blank_final_adds_a_space : forall event w,
  final_text event <> [] ->
  forallb is_space (final_text event) = true ->
  let w' := state_after (onresult event) w in
  interimTranscript (ui w') = []
  /\ finalTranscript (ui w')
     = match finalTranscript (ui w) with
       | [] => []
       | _ :: _ => finalTranscript (ui w) ++ [32%N]
       end.
Proof.
  intros event w H Hsp w'. subst w'.
  rewrite (onresult_ui_final event w H). simpl. split; [reflexivity|].
  unfold append_segment, trim.
  rewrite (trimStart_all_space _ Hsp). unfold trimEnd. simpl.
  destruct (finalTranscript (ui w)); reflexivity.
Qed.

Lemma blank_final_adds_a_space_witness :
  final_text (batch 0 [final_entry " " Undefined]) <> []
  /\ forallb is_space (final_text (batch 0 [final_entry " " Undefined]))
     = true
  /\ interimTranscript
       (ui (state_after (onresult (batch 0 [final_entry " " Undefined]))
                        said_hi)) = []
  /\ finalTranscript
       (ui (state_after (onresult (batch 0 [final_entry " " Undefined]))
                        said_hi))
     = lit "hi ".
Proof.
  split; [discriminate|]. split; [reflexivity|].
  apply (blank_final_adds_a_space
           (batch 0 [final_entry " " Undefined]) said_hi);
    [discriminate|reflexivity].
Defined.

(** ** Invariants of the mounted component *)

Lemma count_snoc : forall (p : HostCall -> bool) l c,
  List.length (filter p (l ++ [c]))
  = List.length (filter p l) + (if p c then 1 else 0).
Proof.
  intros p l c. rewrite filter_app, length_app. simpl.
  now destruct (p c).
Qed.

Lemma Kept_mount : forall api, Kept (mount api).
Proof.
  intros [|]; split; simpl; auto; try discriminate.
  intros rec [= <-]. auto.
Qed.

Ltac close_kept :=
  split; simpl;
  [ assumption || (intros ? [= <-]; auto) || auto
  | unfold start_count, permission_count in *; simpl in *;
    rewrite ?count_snoc; simpl; lia
  | auto; try (apply Forall_app; split; auto) ].

Lemma Kept_step : forall e w w',
  Inv w -> Kept w -> step e w = Some w' -> Kept w'.
Proof.
  intros e [u rr ref tr tm nt aw hc co un] w' [Ht _ _] [Hc Hp Hu] Hs.
  simpl in Ht, Hc, Hu. subst tm.
  destruct e; simpl in Hs.
  - (* ClickToggle *)
    destruct (supported u); [|discriminate].
    injection Hs as <-. unfold_handlers. simpl.
    destruct ref; simpl; [close_kept|].
    destruct (listening u); simpl; [|close_kept].
    destruct stop_reply; close_kept.
  - (* PermissionSettled *)
    destruct aw as [|n]; [discriminate|]. injection Hs as <-.
    unfold_handlers. simpl.
    destruct p; simpl; [|close_kept].
    destruct ref; simpl; [close_kept|].
    destruct start_reply; close_kept.
  - (* EngineResult *)
    unfold has_engine in Hs. simpl in Hs.
    destruct rr as [rec|]; [|discriminate]. injection Hs as <-.
    unfold_handlers. simpl.
    destruct (truthy (final (scan event)));
      destruct (highConfidence (scan event)); close_kept.
  - (* EngineEnd *)
    unfold has_engine in Hs. simpl in Hs.
    destruct rr as [rec|]; [|discriminate]. injection Hs as <-.
    unfold_handlers. simpl. close_kept.
  - (* EngineError *)
    unfold has_engine in Hs. simpl in Hs.
    destruct rr as [rec|]; [|discriminate]. injection Hs as <-.
    unfold_handlers. simpl. close_kept.
  - (* ClickClear *)
    destruct (supported u); [|discriminate].
    injection Hs as <-. unfold_handlers. simpl. close_kept.
  - (* PickLanguage *)
    injection Hs as <-. unfold_handlers. simpl.
    destruct (Js.eqb (lang u) tag); simpl; [close_kept|].
    destruct ref; simpl; [close_kept|].
    split; simpl; auto.
    intros rec H. destruct rr as [rec0|]; [|discriminate].
    simpl in H. injection H as <-. simpl. now apply Hc.
  - (* TimerFires *)
    unfold has_timer in Hs. simpl in Hs. discriminate.
Qed.

Lemma reachable_Kept : forall w, reachable w -> Kept w.
Proof.
  induction 1 as [api|w e w' Hw IH Hs].
  - apply Kept_mount.
  - exact (Kept_step e (reachable_Inv Hw) IH Hs).
Qed.

(** X6: the engine keeps the settings of the mount effect for as long as the
    component is mounted: continuous, with interim results, one alternative;
    its language is always the one selected in the picker. *)
Theorem engine_settings_are_kept : forall w rec,
  reachable w -> r w = Some rec ->
  continuous rec = true /\ interimResults rec = true
  /\ maxAlternatives rec = 1%N /\ r_lang rec = lang (ui w).
Proof.
  intros w rec Hw Hr.
  destruct (reachable_Kept Hw) as [Hc _ _].
  destruct (reachable_Inv Hw) as [_ _ He].
  destruct (Hc rec Hr) as (H1 & H2 & H3). rewrite Hr in He.
  repeat split; auto. apply He.
Qed.

Lemma engine_settings_are_kept_witness :
  reachable said_hi
  /\ r said_hi = Some (set_r_lang (lit "en-US")
                         {| continuous := true; interimResults := true;
                            maxAlternatives := 1; r_lang := [] |})
  /\ continuous (set_r_lang (lit "en-US")
                   {| continuous := true; interimResults := true;
                      maxAlternatives := 1; r_lang := [] |}) = true
  /\ interimResults (set_r_lang (lit "en-US")
                       {| continuous := true; interimResults := true;
                          maxAlternatives := 1; r_lang := [] |}) = true
  /\ maxAlternatives (set_r_lang (lit "en-US")
                        {| continuous := true; interimResults := true;
                           maxAlternatives := 1; r_lang := [] |}) = 1%N
  /\ r_lang (set_r_lang (lit "en-US")
               {| continuous := true; interimResults := true;
                  maxAlternatives := 1; r_lang := [] |})
     = lang (ui said_hi).
Proof.
  assert (H : reachable said_hi).
  { apply (reachable_step
             (EngineResult (batch 0 [final_entry "hi" Undefined]))
             started_reachable).
    reflexivity. }
  split; [exact H|]. split; [reflexivity|].
  apply (@engine_settings_are_kept said_hi _ H). reflexivity.
Defined.

(** X7: the engine is never started on credit: at every moment the starts
    made so far, together with the permission requests still unsettled, do
    not exceed the permission requests made. *)
Theorem start_needs_permission : forall w,
  reachable w -> start_count w + awaiting w <= permission_count w.
Proof. intros w Hw. now destruct (reachable_Kept Hw). Qed.

Lemma start_needs_permission_witness :
  reachable started
  /\ start_count started + awaiting started <= permission_count started.
Proof.
  split; [exact started_reachable|].
  exact (start_needs_permission started_reachable).
Defined.

(** X8: whatever the engine and the permission prompt answer, the only error
    that ever leaves a handler is the ReferenceError on [setConfidence]: a
    failing start or stop is always caught. *)
Theorem only_the_unbound_setter_escapes : forall w,
  reachable w ->
  Forall (fun e => e = ReferenceError "setConfidence") (uncaught w).
Proof. intros w Hw. now destruct (reachable_Kept Hw). Qed.

Lemma only_the_unbound_setter_escapes_witness :
  reachable said_hi
  /\ Forall (fun e => e = ReferenceError "setConfidence") (uncaught said_hi).
Proof.
  assert (H : reachable said_hi).
  { apply (reachable_step
             (EngineResult (batch 0 [final_entry "hi" Undefined]))
             started_reachable).
    reflexivity. }
  split; [exact H|].
  exact (only_the_unbound_setter_escapes H).
Defined.

(** X9: when a permission request is granted, the engine is started for the
    language selected at that moment; the listening flag is raised when the
    start returns and left as it is when the start fails. *)
Theorem granted_start_uses_selected_language : forall w n reply,
  reachable w -> has_engine w = true -> awaiting w = S n ->
  exists w',
    step (PermissionSettled Granted reply) w = Some w'
    /\ host_calls w' = host_calls w ++ [EngineStart (lang (ui w))]
    /\ awaiting w' = n
    /\ listening (ui w')
       = match reply with
         | Returns => true
         | Raises _ => listening (ui w)
         end
    /\ finalTranscript (ui w') = finalTranscript (ui w)
    /\ interimTranscript (ui w') = interimTranscript (ui w)
    /\ uncaught w' = uncaught w.
Proof.
  intros [u rr ref tr tm nt aw hc co un] n reply Hw He Ha.
  destruct (reachable_Inv Hw) as [_ _ Hi]. simpl in *.
  unfold has_engine in He. simpl in He.
  destruct rr as [rec|]; [|discriminate].
  destruct Hi as (-> & _ & Hl). subst aw.
  eexists. split; [reflexivity|].
  unfold_handlers. unfold engine_lang. simpl. rewrite Hl.
  destruct reply; simpl; repeat split.
Qed.

Lemma granted_start_uses_selected_language_witness :
  reachable (run (toggleListening Returns) (mount true))
  /\ has_engine (run (toggleListening Returns) (mount true)) = true
  /\ awaiting (run (toggleListening Returns) (mount true)) = 1
  /\ exists w',
       step (PermissionSettled Granted Returns)
            (run (toggleListening Returns) (mount true)) = Some w'
       /\ host_calls w'
          = host_calls (run (toggleListening Returns) (mount true))
            ++ [EngineStart
                  (lang (ui (run (toggleListening Returns) (mount true))))]
       /\ awaiting w' = 0
       /\ listening (ui w') = true
       /\ finalTranscript (ui w')
          = finalTranscript (ui (run (toggleListening Returns) (mount true)))
       /\ interimTranscript (ui w')
          = interimTranscript
              (ui (run (toggleListening Returns) (mount true)))
       /\ uncaught w'
          = uncaught (run (toggleListening Returns) (mount true)).
Proof.
  assert (H : reachable (run (toggleListening Returns) (mount true))).
  { apply (reachable_step (ClickToggle Returns) (reachable_mount true)).
    reflexivity. }
  split; [exact H|]. split; [reflexivity|]. split; [reflexivity|].
  exact (@granted_start_uses_selected_language _ 0 Returns H eq_refl
           eq_refl).
Defined.

(** X10: the final transcript is append-only.  Whatever happens other than
    a click on Clear, the transcript afterwards starts with the transcript
    before. *)
Theorem transcript_only_grows : forall e w w',
  step e w = Some w' -> e <> ClickClear ->
  exists suffix,
    finalTranscript (ui w') = finalTranscript (ui w) ++ suffix.
Proof.
  intros e [u rr ref tr tm nt aw hc co un] w' Hs Hne.
  destruct e; simpl in Hs; try congruence.
  - destruct (supported u); [|discriminate]. injection Hs as <-.
    exists []. rewrite app_nil_r. unfold_handlers. simpl.
    destruct ref; simpl; [reflexivity|].
    destruct (listening u); simpl; [|reflexivity].
    destruct stop_reply; reflexivity.
  - destruct aw as [|n]; [discriminate|]. injection Hs as <-.
    exists []. rewrite app_nil_r. unfold_handlers. simpl.
    destruct p; simpl; [|reflexivity].
    destruct ref; simpl; [reflexivity|].
    destruct start_reply; reflexivity.
  - destruct (has_engine _); [|discriminate]. injection Hs as <-.
    unfold_handlers. unfold append_segment. simpl.
    destruct (truthy (final (scan event))) eqn:Ef.
    + destruct (finalTranscript u) as [|c t] eqn:Et; simpl.
      * exists (trim (final (scan event))).
        destruct (highConfidence (scan event)); simpl; now rewrite Et.
      * exists (lit " " ++ trim (final (scan event))).
        destruct (highConfidence (scan event)); simpl; now rewrite Et.
    + exists []. rewrite app_nil_r.
      destruct (highConfidence (scan event)); reflexivity.
  - destruct (has_engine _); [|discriminate]. injection Hs as <-.
    exists []. now rewrite app_nil_r.
  - destruct (has_engine _); [|discriminate]. injection Hs as <-.
    exists []. now rewrite app_nil_r.
  - injection Hs as <-. exists []. rewrite app_nil_r.
    unfold_handlers. simpl.
    destruct (Js.eqb (lang u) tag); simpl; [reflexivity|].
    destruct ref; reflexivity.
  - destruct (has_timer _ _); [|discriminate]. injection Hs as <-.
    exists []. rewrite app_nil_r. unfold_handlers. simpl.
    destruct start_reply; reflexivity.
Qed.

Lemma transcript_only_grows_witness :
  step (EngineResult hello_world_final) said_hi
  = Some (run (onresult hello_world_final) said_hi)
  /\ EngineResult hello_world_final <> ClickClear
  /\ exists suffix,
       finalTranscript (ui (run (onresult hello_world_final) said_hi))
       = finalTranscript (ui said_hi) ++ suffix.
Proof.
  split; [reflexivity|]. split; [discriminate|].
  apply (@transcript_only_grows (EngineResult hello_world_final) said_hi).
  - reflexivity.
  - discriminate.
Defined.

(** X11: the listening flag moves in two ways only: a click on the button
    while it is up lowers it, and a granted permission followed by a start
    that returns raises it.  No event of the engine, no timer, no language
    pick and no clearing ever changes it; in particular the flag stays up
    when the engine ends on its own. *)
Theorem listening_moves_on_request_only : forall e w w',
  step e w = Some w' ->
  listening (ui w') <> listening (ui w) ->
  (exists stop_reply,
     e = ClickToggle stop_reply
     /\ listening (ui w) = true /\ listening (ui w') = false)
  \/ (e = PermissionSettled Granted Returns
      /\ listening (ui w) = false /\ listening (ui w') = true).
Proof.
  intros e [u rr ref tr tm nt aw hc co un] w' Hs Hne.
  destruct e; simpl in Hs.
  - destruct (supported u); [|discriminate]. injection Hs as <-.
    left. exists stop_reply. revert Hne. unfold_handlers. simpl.
    destruct ref; simpl; [congruence|].
    destruct (listening u) eqn:El; simpl; [|congruence].
    destruct stop_reply; simpl; auto.
  - destruct aw as [|n]; [discriminate|]. injection Hs as <-.
    right. revert Hne. unfold_handlers. simpl.
    destruct p; simpl; [|congruence].
    destruct ref; simpl; [congruence|].
    destruct start_reply; simpl; [|congruence].
    destruct (listening u); simpl; [congruence|auto].
  - destruct (has_engine _); [|discriminate]. injection Hs as <-.
    exfalso. apply Hne. unfold_handlers. simpl.
    destruct (truthy (final (scan event)));
      destruct (highConfidence (scan event)); reflexivity.
  - destruct (has_engine _); [|discriminate]. injection Hs as <-.
    exfalso. now apply Hne.
  - destruct (has_engine _); [|discriminate]. injection Hs as <-.
    exfalso. now apply Hne.
  - destruct (supported u); [|discriminate]. injection Hs as <-.
    exfalso. now apply Hne.
  - injection Hs as <-. exfalso. apply Hne. unfold_handlers. simpl.
    destruct (Js.eqb (lang u) tag); simpl; [reflexivity|].
    destruct ref; reflexivity.
  - destruct (has_timer _ _); [|discriminate]. injection Hs as <-.
    exfalso. apply Hne. unfold_handlers. simpl.
    destruct start_reply; reflexivity.
Qed.

Lemma listening_moves_on_request_only_witness :
  step (ClickToggle Returns) started
  = Some (run (toggleListening Returns) started)
  /\ listening (ui (run (toggleListening Returns) started))
     <> listening (ui started)
  /\ ((exists stop_reply,
         ClickToggle Returns = ClickToggle stop_reply
         /\ listening (ui started) = true
         /\ listening (ui (run (toggleListening Returns) started)) = false)
      \/ (ClickToggle Returns = PermissionSettled Granted Returns
          /\ listening (ui started) = false
          /\ listening (ui (run (toggleListening Returns) started)) = true)).
Proof.
  split; [reflexivity|]. split; [discriminate|].
  apply (@listening_moves_on_request_only (ClickToggle Returns) started).
  - reflexivity.
  - discriminate.
Defined.

(** ** Without the API *)

Lemma step_without_api : forall e tag w',
  step e (state_after (setLang tag) (mount false)) = Some w' ->
  exists tag',
    e = PickLanguage tag'
    /\ w' = state_after (setLang tag') (mount false).
Proof.
  intros e tag w' Hs. destruct e; simpl in Hs; try discriminate.
  exists tag0. split; [reflexivity|].
  injection Hs as <-. unfold_handlers. simpl.
  destruct (Js.eqb tag tag0); reflexivity.
Qed.

(** X12: when the host has no SpeechRecognition, the component is inert.
    Of all events only a language pick can occur, and after any number of
    them the state is the one of the mount (not supported, not listening,
    empty transcripts, no call to the host, nothing logged or raised) with
    its language set to the one picked last, "en-US" when none was. *)
Theorem inert_without_api : forall es w,
  steps es (mount false) = Some w ->
  Forall (fun e => exists tag, e = PickLanguage tag) es
  /\ lang (ui w) = last_pick es (lit "en-US")
  /\ w = state_after (setLang (last_pick es (lit "en-US"))) (mount false).
Proof.
  intros es w.
  change (mount false)
    with (state_after (setLang (lit "en-US")) (mount false)) at 1.
  generalize (lit "en-US"). revert w.
  induction es as [|e es IH]; intros w tag H.
  - injection H as <-. split; [constructor|]. split; reflexivity.
  - cbn [steps] in H.
    destruct (step e _) as [w1|] eqn:E; [|discriminate].
    destruct (step_without_api _ _ E) as (tag' & -> & ->).
    destruct (IH _ _ H) as (Hall & Hl & Hw).
    split; [constructor; [now exists tag'|exact Hall]|].
    split; [exact Hl|exact Hw].
Qed.

Lemma inert_without_api_witness :
  steps [PickLanguage (lit "hi-IN"); PickLanguage (lit "or-IN")]
        (mount false)
  = Some (state_after (setLang (lit "or-IN")) (mount false))
  /\ Forall (fun e => exists tag, e = PickLanguage tag)
            [PickLanguage (lit "hi-IN"); PickLanguage (lit "or-IN")]
  /\ lang (ui (state_after (setLang (lit "or-IN")) (mount false)))
     = last_pick [PickLanguage (lit "hi-IN"); PickLanguage (lit "or-IN")]
                 (lit "en-US")
  /\ state_after (setLang (lit "or-IN")) (mount false)
     = state_after
         (setLang (last_pick [PickLanguage (lit "hi-IN");
                              PickLanguage (lit "or-IN")] (lit "en-US")))
         (mount false).
Proof.
  split; [reflexivity|].
  apply (@inert_without_api
           [PickLanguage (lit "hi-IN"); PickLanguage (lit "or-IN")]).
  reflexivity.
Defined.

(** ** Sessions *)

(** X13: a session that is started and then stopped leaves no trace in the
    hook state.  From an idle state, a click, a granted permission and a
    start that returns raise the listening flag; a second click lowers it
    again, whether or not the engine's stop fails, and the transcripts and
    the language are as before.  The host has been called three times:
    permission, start with the engine's language, stop. *)
Theorem start_then_stop_round_trip : forall w any stop_reply,
  supported (ui w) = true -> recognitionRef w = RefR ->
  listening (ui w) = false ->
  exists w2 w3,
    steps [ClickToggle any; PermissionSettled Granted Returns] w = Some w2
    /\ listening (ui w2) = true
    /\ step (ClickToggle stop_reply) w2 = Some w3
    /\ ui w3 = ui w
    /\ host_calls w3
       = host_calls w
         ++ [GetUserMedia; EngineStart (engine_lang w); EngineStop]
    /\ awaiting w3 = awaiting w
    /\ uncaught w3 = uncaught w.
Proof.
  intros [u rr ref tr tm nt aw hc co un] any stop_reply Hsup Href Hl.
  simpl in Hsup, Href, Hl. subst ref.
  destruct u as [su li ft it la]. simpl in Hsup, Hl. subst su li.
  do 2 eexists. split; [reflexivity|].
  split; [reflexivity|].
  split; [reflexivity|].
  unfold_handlers. unfold engine_lang. simpl.
  destruct stop_reply; simpl; rewrite <- !app_assoc; repeat split.
Qed.

Lemma start_then_stop_round_trip_witness :
  supported (ui (run (toggleListening Returns) said_hi)) = true
  /\ recognitionRef (run (toggleListening Returns) said_hi) = RefR
  /\ listening (ui (run (toggleListening Returns) said_hi)) = false
  /\ exists w2 w3,
       steps [ClickToggle Returns; PermissionSettled Granted Returns]
             (run (toggleListening Returns) said_hi) = Some w2
       /\ listening (ui w2) = true
       /\ step (ClickToggle (Raises InvalidStateError)) w2 = Some w3
       /\ ui w3 = ui (run (toggleListening Returns) said_hi)
       /\ host_calls w3
          = host_calls (run (toggleListening Returns) said_hi)
            ++ [GetUserMedia;
                EngineStart
                  (engine_lang (run (toggleListening Returns) said_hi));
                EngineStop]
       /\ awaiting w3 = awaiting (run (toggleListening Returns) said_hi)
       /\ uncaught w3 = uncaught (run (toggleListening Returns) said_hi).
Proof.
  split; [reflexivity|]. split; [reflexivity|]. split; [reflexivity|].
  apply (@start_then_stop_round_trip
           (run (toggleListening Returns) said_hi) Returns
           (Raises InvalidStateError)); reflexivity.
Defined.

(** X14: two clicks before the permission prompt is answered ask for the
    permission twice and, when both requests are granted, start the engine
    twice.  When the second start fails, as on browsers that refuse a start
    while started, the failure is caught and logged as a warning and the
    session stays up: the listening flag is true and nothing is raised. *)
Theorem double_click_starts_twice : forall w any1 any2 e,
  supported (ui w) = true -> recognitionRef w = RefR ->
  listening (ui w) = false ->
  exists w',
    steps [ClickToggle any1; ClickToggle any2;
           PermissionSettled Granted Returns;
           PermissionSettled Granted (Raises e)] w = Some w'
    /\ listening (ui w') = true
    /\ host_calls w'
       = host_calls w
         ++ [GetUserMedia; GetUserMedia;
             EngineStart (engine_lang w); EngineStart (engine_lang w)]
    /\ console w'
       = console w ++ [{| log_level := LevelWarn; log_text := EmptyString;
                          log_arg := Some e |}]
    /\ uncaught w' = uncaught w
    /\ awaiting w' = awaiting w.
Proof.
  intros [u rr ref tr tm nt aw hc co un] any1 any2 e Hsup Href Hl.
  simpl in Hsup, Href, Hl. subst ref.
  destruct u as [su li ft it la]. simpl in Hsup, Hl. subst su li.
  eexists. split; [reflexivity|].
  unfold_handlers. unfold engine_lang. simpl.
  rewrite <- !app_assoc. repeat split.
Qed.

Lemma double_click_starts_twice_witness :
  supported (ui (mount true)) = true /\ recognitionRef (mount true) = RefR
  /\ listening (ui (mount true)) = false
  /\ exists w',
       steps [ClickToggle Returns; ClickToggle Returns;
              PermissionSettled Granted Returns;
              PermissionSettled Granted (Raises InvalidStateError)]
             (mount true) = Some w'
       /\ listening (ui w') = true
       /\ host_calls w'
          = host_calls (mount true)
            ++ [GetUserMedia; GetUserMedia;
                EngineStart (engine_lang (mount true));
                EngineStart (engine_lang (mount true))]
       /\ console w'
          = console (mount true)
            ++ [{| log_level := LevelWarn; log_text := EmptyString;
                   log_arg := Some InvalidStateError |}]
       /\ uncaught w' = uncaught (mount true)
       /\ awaiting w' = awaiting (mount true).
Proof.
  split; [reflexivity|]. split; [reflexivity|]. split; [reflexivity|].
  apply (@double_click_starts_twice (mount true) Returns Returns
           InvalidStateError); reflexivity.
Defined.

(** ** Unmounting *)

Lemma cleared_timer_is_gone : forall id (l : list Timer),
  existsb (fun x => Nat.eqb (timer_id x) id)
          (filter (fun x => negb (Nat.eqb (timer_id x) id)) l) = false.
Proof.
  intros id l. induction l as [|x l IH]; simpl; [reflexivity|].
  destruct (Nat.eqb (timer_id x) id) eqn:E; simpl; [exact IH|].
  now rewrite E.
Qed.

(** X15: unmounting a component that has an engine sets the three handlers
    to null, clears the timeout the ref points to, and asks the engine to
    stop exactly once.  It is silent: when the stop fails nothing is logged
    and nothing is raised, and the hook state is untouched. *)
Theorem unmount_is_silent : forall p stop_reply,
  mounted p = true -> has_engine (world p) = true ->
  exists p',
    page_step (Unmount stop_reply) p = Some p'
    /\ mounted p' = false
    /\ handlers p' = no_handlers
    /\ host_calls (world p') = host_calls (world p) ++ [EngineStop]
    /\ console (world p') = console (world p)
    /\ uncaught (world p') = uncaught (world p)
    /\ ui (world p') = ui (world p)
    /\ awaiting (world p') = awaiting (world p)
    /\ forall id, timerRef (world p) = Some id ->
                  has_timer id (world p') = false.
Proof.
  intros [w h m] stop_reply Hm He. simpl in Hm, He. subst m.
  eexists. split; [reflexivity|].
  unfold unmount, cleanup. simpl. rewrite He. simpl.
  unfold cleanup_world. unfold_handlers. unfold clearTimeout, has_timer.
  unfold_handlers.
  destruct (timerRef w) as [t|] eqn:Et; destruct stop_reply; simpl;
    repeat split; try discriminate;
    intros id [= <-]; apply cleared_timer_is_gone.
Qed.

Lemma unmount_is_silent_witness :
  mounted (page_mount true) = true
  /\ has_engine (world (page_mount true)) = true
  /\ exists p',
       page_step (Unmount (Raises InvalidStateError)) (page_mount true)
       = Some p'
       /\ mounted p' = false
       /\ handlers p' = no_handlers
       /\ host_calls (world p')
          = host_calls (world (page_mount true)) ++ [EngineStop]
       /\ console (world p') = console (world (page_mount true))
       /\ uncaught (world p') = uncaught (world (page_mount true))
       /\ ui (world p') = ui (world (page_mount true))
       /\ awaiting (world p') = awaiting (world (page_mount true))
       /\ forall id, timerRef (world (page_mount true)) = Some id ->
                     has_timer id (world p') = false.
Proof.
  split; [reflexivity|]. split; [reflexivity|].
  apply (@unmount_is_silent (page_mount true) (Raises InvalidStateError));
    reflexivity.
Defined.

Lemma engine_event_without_handlers : forall e w m,
  has_engine w = true -> is_engine_event e = true ->
  page_step (Inner e) {| world := w; handlers := no_handlers; mounted := m |}
  = Some {| world := w; handlers := no_handlers; mounted := m |}.
Proof.
  intros e w m He Hev. destruct e; try discriminate; simpl;
    now rewrite He.
Qed.

(** X16: once unmounted, the component is deaf to the engine: whatever
    results, ends and errors the engine still reports, in any number and
    order, nothing changes, neither the transcripts nor anything else. *)
Theorem unmounted_ignores_engine : forall p stop_reply p' es,
  has_engine (world p) = true ->
  page_step (Unmount stop_reply) p = Some p' ->
  forallb is_engine_event es = true ->
  page_steps (map Inner es) p' = Some p'.
Proof.
  intros [w h m] stop_reply p' es He Hu Hall. simpl in He.
  unfold page_step in Hu. simpl in Hu.
  destruct m; [|discriminate]. injection Hu as <-.
  unfold unmount, cleanup. simpl. rewrite He. simpl.
  assert (He' : has_engine (run (cleanup_world stop_reply) w) = true).
  { revert He. unfold cleanup_world, has_engine. unfold_handlers.
    unfold clearTimeout. unfold_handlers.
    destruct (timerRef w); destruct stop_reply; simpl; auto. }
  induction es as [|e es IH]; [reflexivity|].
  simpl in Hall. apply andb_true_iff in Hall. destruct Hall as [H1 H2].
  cbn [map page_steps].
  rewrite (engine_event_without_handlers e _ false He' H1).
  exact (IH H2).
Qed.

Lemma unmounted_ignores_engine_witness :
  has_engine (world (page_mount true)) = true
  /\ page_step (Unmount Returns) (page_mount true)
     = Some (unmount Returns (page_mount true))
  /\ forallb is_engine_event
       [EngineResult hello_world_final; EngineEnd;
        EngineError (EngineFault "no-speech")] = true
  /\ page_steps
       (map Inner [EngineResult hello_world_final; EngineEnd;
                   EngineError (EngineFault "no-speech")])
       (unmount Returns (page_mount true))
     = Some (unmount Returns (page_mount true)).
Proof.
  split; [reflexivity|]. split; [reflexivity|]. split; [reflexivity|].
  apply (@unmounted_ignores_engine (page_mount true) Returns
           (unmount Returns (page_mount true))
           [EngineResult hello_world_final; EngineEnd;
            EngineError (EngineFault "no-speech")]); reflexivity.
Defined.

(** X17: the cleanup does not cancel a start that is waiting for the
    permission.  When the component is unmounted between the click and the
    answer of the prompt and the permission is then granted, the engine is
    started after the cleanup stopped it, with no handler assigned to hear
    it; the hook state is not touched. *)
Theorem late_grant_starts_after_unmount : forall p any stop_reply reply,
  mounted p = true -> has_engine (world p) = true ->
  supported (ui (world p)) = true -> recognitionRef (world p) = RefR ->
  listening (ui (world p)) = false ->
  exists p',
    page_steps [Inner (ClickToggle any); Unmount stop_reply;
                Inner (PermissionSettled Granted reply)] p = Some p'
    /\ host_calls (world p')
       = host_calls (world p)
         ++ [GetUserMedia; EngineStop; EngineStart (engine_lang (world p))]
    /\ handlers p' = no_handlers
    /\ mounted p' = false
    /\ ui (world p') = ui (world p).
Proof.
  intros [[u rr ref tr tm nt aw hc co un] h m] any stop_reply reply
         Hm He Hsup Href Hl.
  simpl in Hm, He, Hsup, Href, Hl. subst m ref.
  unfold has_engine in He. simpl in He.
  destruct rr as [rec|]; [|discriminate].
  destruct u as [su li ft it la]. simpl in Hsup, Hl. subst su li.
  unfold page_steps, page_step, on_world, unmount, cleanup, cleanup_world,
    keep_ui, step, has_engine, clearTimeout.
  unfold_handlers. unfold engine_lang. simpl.
  destruct tr as [t|]; destruct stop_reply; destruct reply; simpl;
    eexists; (split; [reflexivity|]); simpl;
    rewrite <- ?app_assoc; repeat split.
Qed.

Lemma late_grant_starts_after_unmount_witness :
  mounted (page_mount true) = true
  /\ has_engine (world (page_mount true)) = true
  /\ supported (ui (world (page_mount true))) = true
  /\ recognitionRef (world (page_mount true)) = RefR
  /\ listening (ui (world (page_mount true))) = false
  /\ exists p',
       page_steps [Inner (ClickToggle Returns); Unmount Returns;
                   Inner (PermissionSettled Granted Returns)]
                  (page_mount true) = Some p'
       /\ host_calls (world p')
          = host_calls (world (page_mount true))
            ++ [GetUserMedia; EngineStop;
                EngineStart (engine_lang (world (page_mount true)))]
       /\ handlers p' = no_handlers
       /\ mounted p' = false
       /\ ui (world p') = ui (world (page_mount true)).
Proof.
  split; [reflexivity|]. split; [reflexivity|]. split; [reflexivity|].
  split; [reflexivity|]. split; [reflexivity|].
  apply (@late_grant_starts_after_unmount (page_mount true) Returns Returns
           Returns); reflexivity.
Defined.

(** ** Transcripts over several batches *)

Lemma run_onresult_frame : forall event w,
  ui (run (onresult event) w) = ui (state_after (onresult event) w)
  /\ r (run (onresult event) w) = r w
  /\ host_calls (run (onresult event) w) = host_calls w.
Proof.
  intros event w. unfold state_after. unfold_handlers.
  destruct (truthy (final (scan event)));
    destruct (highConfidence (scan event)); repeat split.
Qed.

Lemma step_final_batch : forall event w,
  has_engine w = true -> final_text event <> [] ->
  exists w1,
    step (EngineResult event) w = Some w1
    /\ has_engine w1 = true
    /\ host_calls w1 = host_calls w
    /\ ui w1
       = {| supported := supported (ui w); listening := listening (ui w);
            finalTranscript :=
              append_segment (final_text event) (finalTranscript (ui w));
            interimTranscript := []; lang := lang (ui w) |}.
Proof.
  intros event w He Hf. unfold step. rewrite He.
  destruct (run_onresult_frame event w) as (Hu & Hr & Hc).
  eexists. split; [reflexivity|]. repeat split.
  - unfold has_engine in *. now rewrite Hr.
  - exact Hc.
  - rewrite Hu. now apply onresult_ui_final.
Qed.

Lemma join_space_cons : forall s l,
  join_space (s :: l) = s ++ List.concat (map (fun x => lit " " ++ x) l).
Proof.
  intros s l. revert s. induction l as [|x l IH]; intro s.
  - simpl. now rewrite app_nil_r.
  - change (join_space (s :: x :: l)) with (s ++ lit " " ++ join_space (x :: l)).
    rewrite IH. reflexivity.
Qed.

Lemma final_batches_from : forall evs w,
  has_engine w = true ->
  finalTranscript (ui w) <> [] ->
  Forall (fun event => trim (final_text event) <> []) evs ->
  exists w',
    steps (map EngineResult evs) w = Some w'
    /\ host_calls w' = host_calls w
    /\ listening (ui w') = listening (ui w)
    /\ finalTranscript (ui w')
       = finalTranscript (ui w)
         ++ List.concat (map (fun x => lit " " ++ x)
                             (map (fun event => trim (final_text event))
                                  evs)).
Proof.
  induction evs as [|event evs IH]; intros w He Ht Hall.
  - exists w. simpl. rewrite app_nil_r. auto.
  - pose proof (Forall_inv Hall) as Hf. apply Forall_inv_tail in Hall.
    assert (Hne : final_text event <> []) by (intro E; apply Hf; now rewrite E).
    destruct (step_final_batch event w He Hne) as (w1 & Hs & He1 & Hc1 & Hu1).
    assert (Ht1 : finalTranscript (ui w1)
                  = finalTranscript (ui w) ++ lit " "
                    ++ trim (final_text event)).
    { rewrite Hu1. simpl. unfold append_segment.
      destruct (finalTranscript (ui w)); [congruence|reflexivity]. }
    destruct (IH w1 He1) as (w' & Hs' & Hc' & Hl' & Hf'); [|exact Hall|].
    + rewrite Ht1. destruct (finalTranscript (ui w)); [congruence|discriminate].
    + exists w'. cbn [map steps]. rewrite Hs. split; [exact Hs'|].
      split; [congruence|]. split; [now rewrite Hl', Hu1|].
      rewrite Hf', Ht1. simpl. now rewrite <- !app_assoc.
Qed.

(** X18: final results add up to a space-joined transcript.  Starting from
    an empty transcript, after any run of result events whose final text
    each has something left once trimmed, the final transcript is the
    trimmed final texts of the events, in order, joined by single spaces;
    the listening flag and the calls to the host are as before. *)
Theorem final_batches_join_with_spaces : forall evs w,
  has_engine w = true ->
  finalTranscript (ui w) = [] ->
  Forall (fun event => trim (final_text event) <> []) evs ->
  exists w',
    steps (map EngineResult evs) w = Some w'
    /\ finalTranscript (ui w')
       = join_space (map (fun event => trim (final_text event)) evs)
    /\ listening (ui w') = listening (ui w)
    /\ host_calls w' = host_calls w.
Proof.
  intros [|event evs] w He Ht Hall.
  - exists w. simpl. auto.
  - pose proof (Forall_inv Hall) as Hf. apply Forall_inv_tail in Hall.
    assert (Hne : final_text event <> []) by (intro E; apply Hf; now rewrite E).
    destruct (step_final_batch event w He Hne) as (w1 & Hs & He1 & Hc1 & Hu1).
    assert (Ht1 : finalTranscript (ui w1) = trim (final_text event)).
    { rewrite Hu1. simpl. unfold append_segment. now rewrite Ht. }
    destruct (@final_batches_from evs w1 He1) as (w' & Hs' & Hc' & Hl' & Hf');
      [now rewrite Ht1|exact Hall|].
    exists w'. cbn [map steps]. rewrite Hs. split; [exact Hs'|].
    split; [|split; [now rewrite Hl', Hu1|congruence]].
    rewrite Hf', Ht1. now rewrite join_space_cons.
Qed.

Lemma final_batches_join_with_spaces_witness :
  has_engine started = true
  /\ finalTranscript (ui started) = []
  /\ Forall (fun event => trim (final_text event) <> [])
            [batch 0 [final_entry " hello" Undefined];
             batch 1 [final_entry "skip" Undefined;
                      final_entry " world " Undefined]]
  /\ exists w',
       steps (map EngineResult
                  [batch 0 [final_entry " hello" Undefined];
                   batch 1 [final_entry "skip" Undefined;
                            final_entry " world " Undefined]])
             started = Some w'
       /\ finalTranscript (ui w') = lit "hello world"
       /\ listening (ui w') = listening (ui started)
       /\ host_calls w' = host_calls started.
Proof.
  split; [reflexivity|]. split; [reflexivity|].
  split; [repeat constructor; discriminate|].
  apply (@final_batches_join_with_spaces
           [batch 0 [final_entry " hello" Undefined];
            batch 1 [final_entry "skip" Undefined;
                     final_entry " world " Undefined]] started).
  - reflexivity.
  - reflexivity.
  - repeat constructor; discriminate.
Defined.

(** X19: after a click on Clear the transcript starts afresh: the next
    batch with a final text leaves that text, trimmed, as the whole
    transcript, with no separator in front; the click neither stops the
    session nor calls the host. *)
Theorem clear_then_final_starts_afresh : forall w event,
  supported (ui w) = true -> has_engine w = true ->
  final_text event <> [] ->
  exists w',
    steps [ClickClear; EngineResult event] w = Some w'
    /\ finalTranscript (ui w') = trim (final_text event)
    /\ interimTranscript (ui w') = []
    /\ listening (ui w') = listening (ui w)
    /\ host_calls w' = host_calls w.
Proof.
  intros w event Hsup He Hf.
  assert (Hc : step ClickClear w = Some (run handleClear w))
    by (simpl; now rewrite Hsup).
  destruct (step_final_batch event (run handleClear w)) as
    (w' & Hs & _ & Hcalls & Hu); [exact He|exact Hf|].
  exists w'. cbn [steps]. rewrite Hc, Hs. split; [reflexivity|].
  rewrite Hu, Hcalls. repeat split.
Qed.

Lemma clear_then_final_starts_afresh_witness :
  supported (ui said_hi) = true /\ has_engine said_hi = true
  /\ final_text hello_world_final <> []
  /\ exists w',
       steps [ClickClear; EngineResult hello_world_final] said_hi = Some w'
       /\ finalTranscript (ui w') = lit "hello world"
       /\ interimTranscript (ui w') = []
       /\ listening (ui w') = listening (ui said_hi)
       /\ host_calls w' = host_calls said_hi.
Proof.
  split; [reflexivity|]. split; [reflexivity|]. split; [discriminate|].
  apply (@clear_then_final_starts_afresh said_hi hello_world_final);
    [reflexivity|reflexivity|discriminate].
Defined.

(** X20: when the engine ends on its own during a session, the button does
    not resume it at once.  The flag is still up, so the next click takes
    the stop arm: it calls stop on the ended engine and lowers the flag.
    Only a further click asks for the permission and, once granted, starts
    the engine again. *)
Theorem resume_after_end_takes_two_clicks : forall w any1 any2,
  supported (ui w) = true -> has_engine w = true ->
  recognitionRef w = RefR -> listening (ui w) = true ->
  exists w1 w2,
    steps [EngineEnd; ClickToggle any1] w = Some w1
    /\ listening (ui w1) = false
    /\ host_calls w1 = host_calls w ++ [EngineStop]
    /\ steps [ClickToggle any2; PermissionSettled Granted Returns] w1
       = Some w2
    /\ listening (ui w2) = true
    /\ host_calls w2
       = host_calls w
         ++ [EngineStop; GetUserMedia; EngineStart (engine_lang w)]
    /\ finalTranscript (ui w2) = finalTranscript (ui w)
    /\ uncaught w2 = uncaught w.
Proof.
  intros [u rr ref tr tm nt aw hc co un] any1 any2 Hsup He Href Hl.
  simpl in Hsup, Href, Hl. subst ref.
  unfold has_engine in He. simpl in He.
  destruct rr as [rec|]; [|discriminate].
  destruct u as [su li ft it la]. simpl in Hsup, Hl. subst su li.
  unfold steps, step, has_engine. unfold_handlers. unfold engine_lang.
  simpl.
  destruct any1; simpl; do 2 eexists;
    (split; [reflexivity|]); simpl;
    repeat split; simpl; rewrite <- ?app_assoc; reflexivity.
Qed.

Lemma resume_after_end_takes_two_clicks_witness :
  supported (ui started) = true /\ has_engine started = true
  /\ recognitionRef started = RefR /\ listening (ui started) = true
  /\ exists w1 w2,
       steps [EngineEnd; ClickToggle Returns] started = Some w1
       /\ listening (ui w1) = false
       /\ host_calls w1 = host_calls started ++ [EngineStop]
       /\ steps [ClickToggle Returns; PermissionSettled Granted Returns] w1
          = Some w2
       /\ listening (ui w2) = true
       /\ host_calls w2
          = host_calls started
            ++ [EngineStop; GetUserMedia; EngineStart (engine_lang started)]
       /\ finalTranscript (ui w2) = finalTranscript (ui started)
       /\ uncaught w2 = uncaught started.
Proof.
  split; [reflexivity|]. split; [reflexivity|]. split; [reflexivity|].
  split; [reflexivity|].
  apply (@resume_after_end_takes_two_clicks started Returns Returns);
    reflexivity.
Defined.
